(** * szork: the Scala error-handling migration script (migrate_errors.py)

    A shallow embedding of [add_imports], [migrate_file] and the driver loop
    of [main], together with the string primitives and the fragment of
    Python's [re] module the script relies on.

    Modelling conventions.
    - A Python [str] is a [list ascii]; a character is its code point, so the
      development covers texts whose code points are below 256.  [lower] and
      the class [\s] are given for exactly that range.
    - [re.sub] is a left-to-right scan that tries a backtracking match at
      every position; the matcher below is a small backtracking engine with
      greedy repetition and one capture group, which is all the four
      patterns of the script need.
    - File access is explicit state passing over a [world] that records the
      file contents and a log of every read, write and print. *)

From Stdlib Require Import List Ascii String DecimalString Arith Bool Lia.
Import ListNotations.

Set Implicit Arguments.

(* ------------------------------------------------------------------ *)
(** ** Python strings *)

Module Py.

Definition str := list ascii.

(** String literals of the script. *)
Definition lit (x : string) : str := list_ascii_of_string x.

Definition nl : ascii := "010"%char.
Definition dquote : ascii := "034"%char.

(** [line.startswith(prefix)] *)
Fixpoint startswith (line prefix : str) : bool :=
  match prefix, line with
  | [], _ => true
  | _ :: _, [] => false
  | p :: prefix', c :: line' => Ascii.eqb c p && startswith line' prefix'
  end.

(** [needle in hay] *)
Fixpoint str_in (needle hay : str) : bool :=
  startswith hay needle ||
  match hay with
  | [] => false
  | _ :: hay' => str_in needle hay'
  end.

(** [s.endswith(suffix)] *)
Definition endswith (s suffix : str) : bool :=
  startswith (rev s) (rev suffix).

(** [content.split(sep)] for a one-character separator: never empty. *)
Fixpoint split (sep : ascii) (s : str) : list str :=
  match s with
  | [] => [[]]
  | c :: s' =>
      if Ascii.eqb c sep then [] :: split sep s'
      else match split sep s' with
           | l :: ls => (c :: l) :: ls
           | [] => [[c]]
           end
  end.

(** [sep.join(lines)] *)
Fixpoint join (sep : str) (lines : list str) : str :=
  match lines with
  | [] => []
  | l :: lines' =>
      match lines' with
      | [] => l
      | _ :: _ => l ++ sep ++ join sep lines'
      end
  end.

(** [lines.insert(i, x)] for [i >= 0]: an index past the end appends. *)
Definition insert (A : Type) (i : nat) (x : A) (l : list A) : list A :=
  firstn i l ++ x :: skipn i l.

(** [c.lower()] on code points below 256: A-Z, and the Latin-1 capitals
    0xC0-0xDE except the multiplication sign 0xD7, move up by 32. *)
Definition lower_char (c : ascii) : ascii :=
  let n := nat_of_ascii c in
  if ((65 <=? n) && (n <=? 90)) ||
     ((192 <=? n) && (n <=? 222) && negb (n =? 215))
  then ascii_of_nat (n + 32) else c.

Definition lower (s : str) : str := map lower_char s.

(** The class [\s] of a [str] pattern, on code points below 256. *)
Definition is_space (c : ascii) : bool :=
  let n := nat_of_ascii c in
  ((9 <=? n) && (n <=? 13)) || ((28 <=? n) && (n <=? 32)) ||
  (n =? 133) || (n =? 160).

End Py.

(* ------------------------------------------------------------------ *)
(** ** The fragment of [re] used by the script *)

Module Re.
Import Py.

(** Pattern items.  Repetition is only ever applied to a character class. *)
Inductive item : Type :=
| Lit (c : ascii)                (* a literal (possibly escaped) character *)
| Star (cls : ascii -> bool)     (* greedy  cls*  *)
| Plus (cls : ascii -> bool)     (* greedy  cls+  *)
| GOpen                          (* (  of group 1 *)
| GClose.                        (* )  of group 1 *)

Definition pattern := list item.

Definition lits (x : string) : pattern := map Lit (lit x).

(** Negated one-character class [[^c]]. *)
Definition not_char (c x : ascii) : bool := negb (Ascii.eqb x c).

(** A successful match: the text of group 1 and the unconsumed input. *)
Definition mresult : Type := str * str.

(** Greedy repetition with backtracking: consume as many characters of the
    class as possible, and give them back one at a time while the rest of
    the pattern (the continuation [k]) fails. *)
Fixpoint star_k (cls : ascii -> bool) (k : str -> option mresult)
                (s : str) : option mresult :=
  match s with
  | c :: s' =>
      if cls c then
        match star_k cls k s' with
        | Some r => Some r
        | None => k s
        end
      else k s
  | [] => k s
  end.

(** Backtracking match of [p] at the start of [s].  [gopen] is the input as
    it stood when group 1 was opened, [grp] the text captured so far. *)
Fixpoint bt (p : pattern) (gopen grp : str) (s : str) : option mresult :=
  match p with
  | [] => Some (grp, s)
  | Lit c :: p' =>
      match s with
      | x :: s' => if Ascii.eqb x c then bt p' gopen grp s' else None
      | [] => None
      end
  | Star cls :: p' => star_k cls (bt p' gopen grp) s
  | Plus cls :: p' =>
      match s with
      | x :: s' => if cls x then star_k cls (bt p' gopen grp) s' else None
      | [] => None
      end
  | GOpen :: p' => bt p' s grp s
  | GClose :: p' => bt p' gopen (firstn (List.length gopen - List.length s) gopen) s
  end.

(** [pattern.match(s)] at position 0. *)
Definition re_match (p : pattern) (s : str) : option mresult := bt p [] [] s.

(** Replacement templates: literal text and the back-reference [\1]. *)
Inductive titem : Type :=
| TLit (x : str)
| TGrp.

Definition template := list titem.

Fixpoint expand (t : template) (g : str) : str :=
  match t with
  | [] => []
  | TLit x :: t' => x ++ expand t' g
  | TGrp :: t' => g ++ expand t' g
  end.

(** The scan of [re.sub].  [skip] counts the characters of the current
    match that are still to be stepped over; at [skip = 0] a match is tried
    at the current position.  None of the script's patterns matches the
    empty string, so a match always advances the scan. *)
Fixpoint sub_from (p : pattern) (t : template) (skip : nat) (s : str) : str :=
  match s with
  | [] => []
  | c :: s' =>
      match skip with
      | S n => sub_from p t n s'
      | O =>
          match re_match p s with
          | Some (g, rest) =>
              expand t g ++ sub_from p t (List.length s' - List.length rest) s'
          | None => c :: sub_from p t 0 s'
          end
      end
  end.

(** [re.sub(p, t, s)] *)
Definition sub (p : pattern) (t : template) (s : str) : str :=
  sub_from p t 0 s.

(** The groups captured by the scan of [re.sub], left to right. *)
Fixpoint groups_from (p : pattern) (skip : nat) (s : str) : list str :=
  match s with
  | [] => []
  | c :: s' =>
      match skip with
      | S n => groups_from p n s'
      | O =>
          match re_match p s with
          | Some (g, rest) => g :: groups_from p (List.length s' - List.length rest) s'
          | None => groups_from p 0 s'
          end
      end
  end.

Definition groups (p : pattern) (s : str) : list str := groups_from p 0 s.

(** [re.search(p, s) is not None] *)
Fixpoint search (p : pattern) (s : str) : bool :=
  match re_match p s with
  | Some _ => true
  | None => match s with
            | [] => false
            | _ :: s' => search p s'
            end
  end.

End Re.

(* ------------------------------------------------------------------ *)
(** ** migrate_errors.py *)

Module Migrate.
Import Py Re.

(** *** add_imports *)

Definition import_error : str := lit "import org.llm4s.szork.error._".
Definition import_handling : str :=
  lit "import org.llm4s.szork.error.ErrorHandling._".

(** The indices collected by the first loop of [add_imports]. *)
Fixpoint import_lines_from (i : nat) (lines : list str) : list nat :=
  match lines with
  | [] => []
  | line :: lines' =>
      if startswith line (lit "import ")
      then i :: import_lines_from (S i) lines'
      else import_lines_from (S i) lines'
  end.

(** The index at which the second loop breaks, if it does. *)
Fixpoint package_line_from (i : nat) (lines : list str) : option nat :=
  match lines with
  | [] => None
  | line :: lines' =>
      if startswith line (lit "package ") then Some i
      else package_line_from (S i) lines'
  end.

Definition add_imports (content : str) : str :=
  if negb (str_in import_error content) then
    let import_lines := import_lines_from 0 (split nl content) in
    match import_lines with
    | _ :: _ =>
        let last_import_idx := last import_lines 0 in
        let lines := split nl content in
        let lines := insert (last_import_idx + 1) import_error lines in
        let lines := insert (last_import_idx + 2) import_handling lines in
        join [nl] lines
    | [] =>
        let lines := split nl content in
        let lines :=
          match package_line_from 0 lines with
          | Some i =>
              let lines := insert (i + 1) [] lines in
              let lines := insert (i + 2) import_error lines in
              insert (i + 3) import_handling lines
          | None => lines
          end in
        join [nl] lines
    end
  else content.

(** *** The patterns and templates of migrate_file *)

(** [:\s*Either\[String,\s*([^]]+)\]] *)
Definition re_either_string : pattern :=
  [Lit ":"; Star is_space] ++ lits "Either[String," ++
  [Star is_space; GOpen; Plus (not_char "]"); GClose; Lit "]"].

(** [:\s*Either\[List\[String\],\s*([^]]+)\]] *)
Definition re_either_list : pattern :=
  [Lit ":"; Star is_space] ++ lits "Either[List[String]," ++
  [Star is_space; GOpen; Plus (not_char "]"); GClose; Lit "]"].

(** [: SzorkResult[\1]] *)
Definition tpl_result : template :=
  [TLit (lit ": SzorkResult["); TGrp; TLit (lit "]")].

(** [Left\(([^)]+)\)] *)
Definition re_left : pattern :=
  lits "Left(" ++ [GOpen; Plus (not_char ")"); GClose; Lit ")"].

Definition tpl_persistence : template :=
  [TLit (lit "Left(PersistenceError("); TGrp;
   TLit (lit ", " ++ [dquote] ++ lit "operation" ++ [dquote] ++ lit "))")].
Definition tpl_parse : template :=
  [TLit (lit "Left(ParseError("); TGrp; TLit (lit "))")].
Definition tpl_validation : template :=
  [TLit (lit "Left(ValidationError(List("); TGrp; TLit (lit ")))")].
Definition tpl_music : template :=
  [TLit (lit "Left(MusicGenerationError("); TGrp; TLit (lit "))")].
Definition tpl_audio : template :=
  [TLit (lit "Left(AudioGenerationError("); TGrp; TLit (lit "))")].
Definition tpl_image : template :=
  [TLit (lit "Left(ImageGenerationError("); TGrp; TLit (lit "))")].
Definition tpl_network : template :=
  [TLit (lit "Left(NetworkError("); TGrp;
   TLit (lit ", " ++ [dquote] ++ lit "service" ++ [dquote] ++ lit "))")].
Definition tpl_game_state : template :=
  [TLit (lit "Left(GameStateError("); TGrp; TLit (lit "))")].

Definition re_logger : pattern := lits "private val logger = LoggerFactory".
Definition tpl_logger : template :=
  [TLit (lit "private implicit val logger = LoggerFactory")].

(** *** The pure part of migrate_file *)

(** Lines 53-54: the migration-need test. *)
Definition needs_migration (content : str) : bool :=
  str_in (lit "Either[String,") content ||
  str_in (lit "Either[List[String],") content.

(** Lines 63-64: the two signature substitutions. *)
Definition rewrite_signatures (content : str) : str :=
  let content := sub re_either_string tpl_result content in
  sub re_either_list tpl_result content.

(** Lines 70-95: the if/elif chain on the lowercased path. *)
Definition rewrite_left (filepath content : str) : str :=
  if str_in (lit "save") (lower filepath) ||
     str_in (lit "persistence") (lower filepath) then
    sub re_left tpl_persistence content
  else if str_in (lit "parse") (lower filepath) ||
          str_in (lit "parser") (lower filepath) then
    sub re_left tpl_parse content
  else if str_in (lit "valid") (lower filepath) then
    sub re_left tpl_validation content
  else if str_in (lit "music") (lower filepath) then
    sub re_left tpl_music content
  else if str_in (lit "tts") (lower filepath) ||
          str_in (lit "speech") (lower filepath) then
    sub re_left tpl_audio content
  else if str_in (lit "image") (lower filepath) then
    sub re_left tpl_image content
  else if str_in (lit "network") (lower filepath) ||
          str_in (lit "api") (lower filepath) then
    sub re_left tpl_network content
  else
    sub re_left tpl_game_state content.

(** Lines 60-98: what migrate_file computes from the text it has read. *)
Definition transform (filepath content : str) : str :=
  let content := add_imports content in
  let content := rewrite_signatures content in
  let content := rewrite_left filepath content in
  sub re_logger tpl_logger content.

(** Line 43: the two files that are never touched. *)
Definition denylisted (filepath : str) : bool :=
  str_in (lit "error/SzorkError.scala") filepath ||
  str_in (lit "error/ErrorHandling.scala") filepath.

(** *** The rule table of the rewriter

    The branches of [rewrite_left] differ only in the template, so the chain
    is also read as a classification of the path followed by a table
    lookup; [rewrite_left_classify] below shows that the two agree. *)

Inductive category : Type :=
| Persistence | Parse | Validation | Music | Audio | Image | Network
| GameState.

Definition keyword_rules : list (list string * category) :=
  [ (["save"; "persistence"], Persistence);
    (["parse"; "parser"], Parse);
    (["valid"], Validation);
    (["music"], Music);
    (["tts"; "speech"], Audio);
    (["image"], Image);
    (["network"; "api"], Network) ]%string.

Definition rule_matches (p : str) (kws : list string) : bool :=
  existsb (fun kw => str_in (lit kw) p) kws.

Fixpoint first_rule (rules : list (list string * category)) (p : str)
  : category :=
  match rules with
  | [] => GameState
  | (kws, c) :: rules' => if rule_matches p kws then c else first_rule rules' p
  end.

Definition classify (filepath : str) : category :=
  first_rule keyword_rules (lower filepath).

Definition left_template (c : category) : template :=
  match c with
  | Persistence => tpl_persistence
  | Parse => tpl_parse
  | Validation => tpl_validation
  | Music => tpl_music
  | Audio => tpl_audio
  | Image => tpl_image
  | Network => tpl_network
  | GameState => tpl_game_state
  end.

(** *** Files and the console *)

Inductive event : Type :=
| EvRead (path : str)                (* open(path, 'r') and read() *)
| EvWrite (path content : str)       (* open(path, 'w') and write(content) *)
| EvPrint (text : str).              (* print(text) *)

Record world : Type := World {
  files : str -> option str;         (* the text of each existing file *)
  log : list event                   (* what has been done, oldest first *)
}.

(** A call returns a value or lets an exception escape. *)
Inductive outcome (A : Type) : Type :=
| Returned (a : A)
| Raised.
Arguments Raised {A}.

(** [a == b] on strings *)
Fixpoint str_eqb (a b : str) : bool :=
  match a, b with
  | [], [] => true
  | x :: a', y :: b' => Ascii.eqb x y && str_eqb a' b'
  | _, _ => false
  end.

Definition write_file (filepath content : str) (fs : str -> option str)
  : str -> option str :=
  fun q => if str_eqb q filepath then Some content else fs q.

(** [migrate_file(filepath)].  Opening a file that does not exist raises.
    The other ways in which open, read and write can fail (permissions, a
    directory, bytes that do not decode) are outside this model: a file
    that exists is taken to be readable and writable.  The text is the
    [str] that [read] returns and [write] receives. *)
Definition migrate_file (filepath : str) (w : world) : outcome bool * world :=
  if denylisted filepath then (Returned false, w)
  else
    match files w filepath with
    | None => (Raised, w)
    | Some content =>
        let w := World (files w) (log w ++ [EvRead filepath]) in
        let original_content := content in
        if negb (needs_migration content) then (Returned false, w)
        else
          let content := transform filepath content in
          if negb (str_eqb content original_content) then
            (Returned true,
             World (write_file filepath content (files w))
                   (log w ++ [EvWrite filepath content;
                              EvPrint (lit "Migrated: " ++ filepath)]))
          else (Returned false, w)
    end.

(** *** main *)

(** [os.path.join(root, file)] *)
Definition path_join (root file : str) : str :=
  if startswith file (lit "/") then file
  else match root with
       | [] => file
       | _ :: _ => if endswith root (lit "/") then root ++ file
                   else root ++ lit "/" ++ file
       end.

(** The inner loop of [main] over the files of one directory. *)
Fixpoint main_files (root : str) (names : list str) (w : world)
                    (migrated_count : nat) : outcome nat * world :=
  match names with
  | [] => (Returned migrated_count, w)
  | file :: names' =>
      if endswith file (lit ".scala") then
        match migrate_file (path_join root file) w with
        | (Returned true, w') => main_files root names' w' (migrated_count + 1)
        | (Returned false, w') => main_files root names' w' migrated_count
        | (Raised, w') => (Raised, w')
        end
      else main_files root names' w migrated_count
  end.

(** The outer loop, over what [os.walk(src_dir)] yields: each directory
    with the names of its files. *)
Fixpoint main_walk (walk : list (str * list str)) (w : world)
                   (migrated_count : nat) : outcome nat * world :=
  match walk with
  | [] => (Returned migrated_count, w)
  | (root, names) :: walk' =>
      match main_files root names w migrated_count with
      | (Returned n, w') => main_walk walk' w' n
      | (Raised, w') => (Raised, w')
      end
  end.

Definition manual_review : list str :=
  [lit "TypedWebSocketServer.scala"; lit "SzorkServer.scala";
   lit "StreamingAgent.scala"; lit "GameTools.scala"].

Definition show_nat (n : nat) : str :=
  lit (NilEmpty.string_of_uint (Nat.to_uint n)).

Definition main (walk : list (str * list str)) (w : world)
  : outcome unit * world :=
  match main_walk walk w 0 with
  | (Raised, w') => (Raised, w')
  | (Returned migrated_count, w') =>
      (Returned tt,
       World (files w')
             (log w' ++
              [EvPrint ([nl] ++ lit "Migration complete. " ++
                        show_nat migrated_count ++ lit " files migrated.");
               EvPrint ([nl] ++ lit "Files that may need manual review:")] ++
              map (fun file => EvPrint (lit "  - " ++ file)) manual_review))
  end.

End Migrate.

(* ------------------------------------------------------------------ *)
(** ** Notions used to state the properties *)

Module Notions.
Import Py Re Migrate.

Definition is_import (line : str) : bool := startswith line (lit "import ").
Definition is_package (line : str) : bool := startswith line (lit "package ").

(** How often [line] occurs among the lines of [content]. *)
Definition count_line (line content : str) : nat :=
  List.length (filter (str_eqb line) (split nl content)).

Definition either_string : str := lit "Either[String,".

(** [\s*([^]]+)\]], the end of both signature patterns. *)
Definition sig_tail : pattern :=
  [Star is_space; GOpen; Plus (not_char "]"); GClose; Lit "]"].

(** How many files a stretch of the log writes. *)
Fixpoint count_writes (l : list event) : nat :=
  match l with
  | [] => 0
  | EvWrite _ _ :: l' => S (count_writes l')
  | _ :: l' => count_writes l'
  end.

(** The event reads or writes no file other than a [.scala] one. *)
Definition scala_event (e : event) : Prop :=
  match e with
  | EvRead p => endswith p (lit ".scala") = true
  | EvWrite p _ => endswith p (lit ".scala") = true
  | EvPrint _ => True
  end.

(** What a run of the loops does to the world: the log grows by events on
    [.scala] files only, other files keep their text, and a returned count
    is the count at the start plus the number of writes. *)
Definition loop_effect (w : world) (n : nat) (r : outcome nat * world) : Prop :=
  exists more,
    log (snd r) = log w ++ more /\
    Forall scala_event more /\
    (forall m, fst r = Returned m -> m = n + count_writes more) /\
    (forall q, endswith q (lit ".scala") = false ->
               files (snd r) q = files w q).

(** The lowercased path contains the keyword. *)
Definition has_keyword (filepath : str) (kw : string) : bool :=
  str_in (lit kw) (lower filepath).

(** The chain of lines 70-95 rewrites the file at [filepath] with the
    template [t], whatever its text. *)
Definition applies (filepath : str) (t : template) : Prop :=
  forall content, rewrite_left filepath content = sub re_left t content.

Definition either_list : str := lit "Either[List[String],".

Definition logger_decl : str := lit "private val logger = LoggerFactory".

(** The shape of both signature patterns: [:\s*], a literal, then
    [\s*([^]]+)\]]. *)
Definition sig_pattern (l : str) : pattern :=
  Lit ":" :: Star is_space :: map Lit l ++ sig_tail.

End Notions.

(* ------------------------------------------------------------------ *)
(** ** Concrete texts, paths and worlds *)

Module Examples.
Import Py Re Migrate.

Definition two_imports : str :=
  lit "package a" ++ [nl] ++ lit "import foo.Bar" ++ [nl] ++
  lit "import foo.Baz" ++ [nl] ++ lit "class A".

(** The example of the specification. *)
Definition store_scala : str :=
  lit "import foo.Bar" ++ [nl] ++
  lit "def save(x: Int): Either[String, Unit] = Left(" ++ [dquote] ++
  lit "boom" ++ [dquote] ++ lit ")".

Definition store_scala_migrated : str :=
  lit "import foo.Bar" ++ [nl] ++
  lit "import org.llm4s.szork.error._" ++ [nl] ++
  lit "import org.llm4s.szork.error.ErrorHandling._" ++ [nl] ++
  lit "def save(x: Int): SzorkResult[Unit] = Left(PersistenceError(" ++
  [dquote] ++ lit "boom" ++ [dquote] ++ lit ", " ++
  [dquote] ++ lit "operation" ++ [dquote] ++ lit "))".

Definition store_path : str :=
  lit "src/main/scala/org/llm4s/szork/persistence/Store.scala".

Definition store_world : world :=
  World (fun q => if str_eqb q store_path then Some store_scala else None) [].

Definition szork_error_path : str :=
  lit "src/main/scala/org/llm4s/szork/error/SzorkError.scala".

Definition szork_error_world : world :=
  World (fun q => if str_eqb q szork_error_path
                  then Some (lit "def f: Either[String, Int] = Left(e)")
                  else None) [].

Definition game_path : str := lit "src/main/scala/org/llm4s/szork/Game.scala".

Definition game_scala : str :=
  lit "def run(): Future[Either[String, Int]] = Future(Left(msg))".

Definition game_scala_once : str :=
  lit "def run(): Future[Either[String, Int]] = Future(Left(GameStateError(msg)))".

Definition game_scala_twice : str :=
  lit "def run(): Future[Either[String, Int]] = Future(Left(GameStateError(GameStateError(msg))))".

Definition game_world (content : str) : world :=
  World (fun q => if str_eqb q game_path then Some content else None) [].

Definition save_signature : str :=
  lit "def save(x: Int): Either[String, Map[K, V]] = run(x)".

(** A file that has the [ErrorHandling._] import but not the sentinel. *)
Definition handling_only : str :=
  lit "import org.llm4s.szork.error.ErrorHandling._" ++ [nl] ++
  lit "class A".

(** A file that passes the migration test and that the transformation
    leaves as it is. *)
Definition types_path : str := lit "src/main/scala/org/llm4s/szork/Types.scala".

Definition types_scala : str :=
  lit "import org.llm4s.szork.error._" ++ [nl] ++
  lit "object Types { type R = Either[String, Int] }".

Definition types_world : world :=
  World (fun q => if str_eqb q types_path then Some types_scala else None) [].

Definition store_dir : str :=
  lit "src/main/scala/org/llm4s/szork/persistence".

(** A directory whose first file does not exist any more. *)
Definition gone_walk : list (str * list str) :=
  [(store_dir, [lit "Gone.scala"; lit "Store.scala"])].

Definition package_only : str :=
  lit "package a.b" ++ [nl] ++ lit "class A".

(** A directory as [os.walk] yields it, and the files in it. *)
Definition store_walk : list (str * list str) :=
  [(lit "src/main/scala/org/llm4s/szork/persistence",
    [lit "README.md"; lit "Store.scala"; lit "Plain.scala"])].

Definition plain_path : str :=
  lit "src/main/scala/org/llm4s/szork/persistence/Plain.scala".

Definition store_dir_world : world :=
  World (fun q => if str_eqb q store_path then Some store_scala
                  else if str_eqb q plain_path then Some (lit "object Plain")
                  else None) [].

End Examples.

(* ------------------------------------------------------------------ *)
(** ** Facts about the string primitives *)

Module PyFacts.
Import Py.

Lemma startswith_spec (line prefix : str) :
  startswith line prefix = true <-> exists rest, line = prefix ++ rest.
Proof.
  revert line; induction prefix as [|p prefix IH]; intros line; simpl.
  - split; [exists line; reflexivity | destruct line; reflexivity].
  - destruct line as [|c line]; simpl.
    + split; [discriminate | intros [r Hr]; discriminate].
    + rewrite andb_true_iff, IH, Ascii.eqb_eq. split.
      * intros [-> [r ->]]. now exists r.
      * intros [r Hr]. injection Hr as -> ->. split; [reflexivity | now exists r].
Qed.

Lemma startswith_app (prefix rest : str) : startswith (prefix ++ rest) prefix = true.
Proof. apply startswith_spec. now exists rest. Qed.

Lemma str_in_spec (needle hay : str) :
  str_in needle hay = true <-> exists a b, hay = a ++ needle ++ b.
Proof.
  induction hay as [|c hay IH]; cbn [str_in].
  - rewrite orb_false_r, startswith_spec. split.
    + intros [r Hr]. exists [], r. exact Hr.
    + intros [a [b H]]. destruct a; [now exists b | discriminate].
  - rewrite orb_true_iff, startswith_spec, IH. split.
    + intros [[r Hr] | [a [b H]]].
      * exists [], r. exact Hr.
      * exists (c :: a), b. simpl. now rewrite H.
    + intros [[|x a] [b H]].
      * left. now exists b.
      * right. injection H as _ H. now exists a, b.
Qed.

Lemma str_in_middle (a needle b : str) : str_in needle (a ++ needle ++ b) = true.
Proof. apply str_in_spec. now exists a, b. Qed.

Lemma str_in_app_r (needle a hay : str) :
  str_in needle hay = true -> str_in needle (a ++ hay) = true.
Proof.
  rewrite !str_in_spec. intros [x [y ->]]. exists (a ++ x), y.
  now rewrite <- app_assoc.
Qed.

Lemma str_in_app_l (needle hay b : str) :
  str_in needle hay = true -> str_in needle (hay ++ b) = true.
Proof.
  rewrite !str_in_spec. intros [x [y ->]]. exists x, (y ++ b).
  now rewrite <- !app_assoc.
Qed.

Lemma str_in_cons (needle : str) (c : ascii) (hay : str) :
  str_in needle hay = true -> str_in needle (c :: hay) = true.
Proof. apply (str_in_app_r needle [c]). Qed.

Lemma str_in_tail_false (needle : str) (c : ascii) (hay : str) :
  str_in needle (c :: hay) = false ->
  startswith (c :: hay) needle = false /\ str_in needle hay = false.
Proof. cbn [str_in]. intros H. apply orb_false_iff in H. exact H. Qed.

Lemma str_eqb_spec (a b : str) : Migrate.str_eqb a b = true <-> a = b.
Proof.
  revert b; induction a as [|x a IH]; intros [|y b]; simpl;
    try (split; [reflexivity || discriminate | reflexivity || discriminate]).
  rewrite andb_true_iff, Ascii.eqb_eq, IH. split.
  - now intros [-> ->].
  - intros H. injection H as -> ->. now split.
Qed.

(** *** split and join *)

Lemma split_not_nil (sep : ascii) (s : str) : split sep s <> [].
Proof.
  induction s as [|c s IH]; simpl; [discriminate|].
  destruct (Ascii.eqb c sep); [discriminate|].
  destruct (split sep s); [contradiction | discriminate].
Qed.

Lemma join_cons (sep l : str) (ls : list str) :
  ls <> [] -> join sep (l :: ls) = l ++ sep ++ join sep ls.
Proof. destruct ls; [contradiction | reflexivity]. Qed.

Lemma join_split (sep : ascii) (s : str) : join [sep] (split sep s) = s.
Proof.
  induction s as [|c s IH]; simpl; [reflexivity|].
  destruct (Ascii.eqb c sep) eqn:E.
  - apply Ascii.eqb_eq in E. subst c.
    pose proof (split_not_nil sep s) as Hn.
    destruct (split sep s) as [|l ls] eqn:Es; [contradiction|].
    simpl in *. now rewrite IH.
  - pose proof (split_not_nil sep s) as Hn.
    destruct (split sep s) as [|l ls] eqn:Es; [contradiction|].
    destruct ls; simpl in *; now rewrite <- IH.
Qed.

Lemma split_no_sep (sep : ascii) (s : str) :
  Forall (fun l => ~ In sep l) (split sep s).
Proof.
  induction s as [|c s IH]; simpl.
  - constructor; [intros [] | constructor].
  - destruct (Ascii.eqb c sep) eqn:E.
    + constructor; [intros [] | exact IH].
    + destruct (split sep s) as [|l ls]; [constructor; [|constructor]|].
      * intros [H | []]. subst. now rewrite Ascii.eqb_refl in E.
      * inversion IH; subst. constructor; [|assumption].
        intros [H | H]; [subst; now rewrite Ascii.eqb_refl in E | contradiction].
Qed.

Lemma split_line_app (sep : ascii) (l rest : str) :
  ~ In sep l ->
  split sep (l ++ sep :: rest) = l :: split sep rest.
Proof.
  induction l as [|c l IH]; intros Hl; simpl.
  - now rewrite Ascii.eqb_refl.
  - destruct (Ascii.eqb c sep) eqn:E.
    + apply Ascii.eqb_eq in E. subst. exfalso. apply Hl. now left.
    + rewrite IH; [reflexivity|]. intros H. apply Hl. now right.
Qed.

Lemma split_line (sep : ascii) (l : str) : ~ In sep l -> split sep l = [l].
Proof.
  induction l as [|c l IH]; intros Hl; simpl; [reflexivity|].
  destruct (Ascii.eqb c sep) eqn:E.
  - apply Ascii.eqb_eq in E. subst. exfalso. apply Hl. now left.
  - rewrite IH; [reflexivity|]. intros H. apply Hl. now right.
Qed.

Lemma split_join (sep : ascii) (ls : list str) :
  ls <> [] -> Forall (fun l => ~ In sep l) ls ->
  split sep (join [sep] ls) = ls.
Proof.
  induction ls as [|l ls IH]; intros Hn Hall; [contradiction|].
  inversion Hall as [|? ? Hl Hls]; subst.
  destruct ls as [|l' ls].
  - simpl. now apply split_line.
  - rewrite join_cons by discriminate. cbn [app].
    rewrite split_line_app by assumption.
    rewrite IH; [reflexivity | discriminate | assumption].
Qed.

Lemma join_in (sep l : str) (ls : list str) :
  In l ls -> exists a b, join sep ls = a ++ l ++ b.
Proof.
  induction ls as [|x ls IH]; intros Hin; [contradiction|].
  destruct ls as [|y ls].
  - destruct Hin as [-> | []]. exists [], []. simpl. now rewrite app_nil_r.
  - rewrite join_cons by discriminate. destruct Hin as [-> | Hin].
    + exists [], (sep ++ join sep (y :: ls)). reflexivity.
    + destruct (IH Hin) as [a [b Hab]]. rewrite Hab.
      exists (x ++ sep ++ a), b. now rewrite <- !app_assoc.
Qed.

(** *** insert *)

Lemma insert_app (A : Type) (l1 l2 : list A) (y : A) (n : nat) :
  n = List.length l1 -> insert n y (l1 ++ l2) = l1 ++ y :: l2.
Proof.
  intros ->. unfold insert.
  rewrite firstn_app, skipn_app, firstn_all, skipn_all, Nat.sub_diag.
  simpl. rewrite app_nil_r. reflexivity.
Qed.

Lemma insert_after1 (A : Type) (b a : list A) (x y : A) :
  insert (List.length b + 1) y (b ++ x :: a) = b ++ x :: y :: a.
Proof.
  change (b ++ x :: a) with (b ++ [x] ++ a). rewrite app_assoc.
  rewrite insert_app by (rewrite length_app; reflexivity).
  now rewrite <- app_assoc.
Qed.

Lemma insert_after2 (A : Type) (b a : list A) (x1 x2 y : A) :
  insert (List.length b + 2) y (b ++ x1 :: x2 :: a) = b ++ x1 :: x2 :: y :: a.
Proof.
  change (b ++ x1 :: x2 :: a) with (b ++ [x1; x2] ++ a). rewrite app_assoc.
  rewrite insert_app by (rewrite length_app; reflexivity).
  now rewrite <- app_assoc.
Qed.

Lemma insert_after3 (A : Type) (b a : list A) (x1 x2 x3 y : A) :
  insert (List.length b + 3) y (b ++ x1 :: x2 :: x3 :: a) =
  b ++ x1 :: x2 :: x3 :: y :: a.
Proof.
  change (b ++ x1 :: x2 :: x3 :: a) with (b ++ [x1; x2; x3] ++ a).
  rewrite app_assoc.
  rewrite insert_app by (rewrite length_app; reflexivity).
  now rewrite <- app_assoc.
Qed.

End PyFacts.

(* ------------------------------------------------------------------ *)
(** ** add_imports *)

Module ImportFacts.
Import Py Migrate Notions PyFacts.

Lemma import_lines_nil (lines : list str) (i : nat) :
  import_lines_from i lines = [] <-> Forall (fun l => is_import l = false) lines.
Proof.
  revert i; induction lines as [|l lines IH]; intros i;
    cbn [import_lines_from].
  - split; [constructor | reflexivity].
  - fold (is_import l). destruct (is_import l) eqn:E.
    + split; [discriminate | intros H; inversion H; congruence].
    + rewrite IH. split; [now constructor | intros H; now inversion H].
Qed.

Lemma package_line_none (lines : list str) (i : nat) :
  package_line_from i lines = None <->
  Forall (fun l => is_package l = false) lines.
Proof.
  revert i; induction lines as [|l lines IH]; intros i;
    cbn [package_line_from].
  - split; [constructor | reflexivity].
  - fold (is_package l). destruct (is_package l) eqn:E.
    + split; [discriminate | intros H; inversion H; congruence].
    + rewrite IH. split; [now constructor | intros H; now inversion H].
Qed.

(** The last collected index is that of the last import line. *)
Lemma import_lines_last (lines : list str) (i : nat) :
  import_lines_from i lines <> [] ->
  exists before x after,
    lines = before ++ x :: after /\
    last (import_lines_from i lines) 0 = i + List.length before /\
    is_import x = true /\
    Forall (fun l => is_import l = false) after.
Proof.
  revert i; induction lines as [|l lines IH]; intros i Hne;
    cbn [import_lines_from] in *.
  - contradiction.
  - fold (is_import l) in *. destruct (is_import l) eqn:E.
    + destruct (import_lines_from (S i) lines) as [|j js] eqn:Ej.
      * exists [], l, lines. simpl. rewrite Nat.add_0_r.
        repeat split; try assumption. now apply (import_lines_nil lines (S i)).
      * destruct (IH (S i)) as [b [x [a [Hl [Hlast [Hx Ha]]]]]];
          [rewrite Ej; discriminate|].
        exists (l :: b), x, a. rewrite Ej in Hlast. simpl List.length.
        repeat split; try assumption.
        -- now rewrite Hl.
        -- change (last (i :: j :: js) 0) with (last (j :: js) 0).
           rewrite Hlast. lia.
    + destruct (IH (S i) Hne) as [b [x [a [Hl [Hlast [Hx Ha]]]]]].
      exists (l :: b), x, a. simpl List.length.
      repeat split; try assumption; [now rewrite Hl | rewrite Hlast; lia].
Qed.

(** The index at which the package loop breaks. *)
Lemma package_line_first (lines : list str) (i j : nat) :
  package_line_from i lines = Some j ->
  exists before x after,
    lines = before ++ x :: after /\
    j = i + List.length before /\
    is_package x = true /\
    Forall (fun l => is_package l = false) before.
Proof.
  revert i; induction lines as [|l lines IH]; intros i H;
    cbn [package_line_from] in *.
  - discriminate.
  - fold (is_package l) in *. destruct (is_package l) eqn:E.
    + injection H as <-. exists [], l, lines. simpl.
      rewrite Nat.add_0_r. repeat split; auto.
    + destruct (IH (S i) H) as [b [x [a [Hl [Hj [Hx Hb]]]]]].
      exists (l :: b), x, a. simpl List.length.
      repeat split; auto; [now rewrite Hl | lia].
Qed.

Lemma import_error_no_nl : ~ In nl import_error.
Proof.
  intros H. vm_compute in H.
  repeat (destruct H as [H | H]; [discriminate H|]). exact H.
Qed.

Lemma import_handling_no_nl : ~ In nl import_handling.
Proof.
  intros H. vm_compute in H.
  repeat (destruct H as [H | H]; [discriminate H|]). exact H.
Qed.

(** What [add_imports] does to the lines of a text without the sentinel:
    the three branches of the function. *)
Lemma add_imports_lines (content : str) :
  str_in import_error content = false ->
  (exists before x after,
      split nl content = before ++ x :: after /\
      is_import x = true /\
      Forall (fun l => is_import l = false) after /\
      add_imports content =
        join [nl] (before ++ x :: import_error :: import_handling :: after) /\
      split nl (add_imports content) =
        before ++ x :: import_error :: import_handling :: after)
  \/
  (exists before x after,
      split nl content = before ++ x :: after /\
      Forall (fun l => is_import l = false) (split nl content) /\
      is_package x = true /\
      Forall (fun l => is_package l = false) before /\
      split nl (add_imports content) =
        before ++ x :: [] :: import_error :: import_handling :: after)
  \/
  (Forall (fun l => is_import l = false) (split nl content) /\
   Forall (fun l => is_package l = false) (split nl content) /\
   add_imports content = content).
Proof.
  intros Hs. unfold add_imports. rewrite Hs. cbn [negb].
  pose proof (split_no_sep nl content) as Hnl.
  destruct (import_lines_from 0 (split nl content)) as [|i0 more] eqn:Ei.
  - right. pose proof (proj1 (import_lines_nil _ 0) Ei) as Hni.
    destruct (package_line_from 0 (split nl content)) as [j|] eqn:Ej.
    + left. destruct (package_line_first _ _ Ej) as [b [x [a [Hl [Hj [Hx Hb]]]]]].
      exists b, x, a. repeat split; try assumption.
      rewrite Hl in *. simpl in Hj. subst j.
      rewrite insert_after1, insert_after2, insert_after3.
      apply split_join.
      * destruct b; discriminate.
      * apply Forall_app in Hnl. destruct Hnl as [Hb' Hxa].
        inversion Hxa; subst. apply Forall_app. split; [assumption|].
        constructor; [assumption|]. constructor; [intros []|].
        constructor; [exact import_error_no_nl|].
        constructor; [exact import_handling_no_nl | assumption].
    + right. repeat split; try assumption.
      * now apply (package_line_none _ 0).
      * apply join_split.
  - left.
    destruct (import_lines_last (split nl content) 0) as [b [x [a [Hl [Hlast [Hx Ha]]]]]];
      [rewrite Ei; discriminate|].
    rewrite Ei in Hlast. rewrite Nat.add_0_l in Hlast. cbv zeta.
    exists b, x, a. repeat split; try assumption.
    + rewrite Hlast, Hl.
      now rewrite insert_after1, insert_after2.
    + rewrite Hlast, Hl in *.
      rewrite insert_after1, insert_after2.
      apply split_join.
      * destruct b; discriminate.
      * apply Forall_app in Hnl. destruct Hnl as [Hb' Hxa].
        inversion Hxa; subst. apply Forall_app. split; [assumption|].
        constructor; [assumption|].
        constructor; [exact import_error_no_nl|].
        constructor; [exact import_handling_no_nl | assumption].
Qed.

(** A text that has the sentinel among its lines contains it. *)
Lemma line_in_content (line content : str) :
  In line (split nl content) -> str_in line content = true.
Proof.
  intros Hin. apply str_in_spec.
  destruct (join_in [nl] _ _ Hin) as [a [b H]].
  rewrite join_split in H. now exists a, b.
Qed.

Lemma count_line_zero (line content : str) :
  str_in line content = false -> count_line line content = 0.
Proof.
  intros Hs. unfold count_line.
  destruct (filter (str_eqb line) (split nl content)) as [|l ls] eqn:E;
    [reflexivity|].
  assert (Hin : In l (filter (str_eqb line) (split nl content)))
    by (rewrite E; now left).
  apply filter_In in Hin. destruct Hin as [Hin Heq].
  apply str_eqb_spec in Heq. subst l.
  apply line_in_content in Hin. congruence.
Qed.

End ImportFacts.

(* ------------------------------------------------------------------ *)
(** ** Properties of add_imports *)

Module ImportSpec.
Import Py Migrate Notions Examples PyFacts ImportFacts.

Lemma filter_inserted (A : Type) (f : A -> bool) (b : list A) (x : A)
      (ins a : list A) :
  List.length (filter f (b ++ x :: ins ++ a)) =
  List.length (filter f (b ++ x :: a)) + List.length (filter f ins).
Proof.
  rewrite !filter_app, !length_app. cbn [filter].
  destruct (f x); cbn [List.length]; rewrite filter_app, length_app; lia.
Qed.

Lemma add_imports_sentinel (content : str) :
  str_in import_error content = true -> add_imports content = content.
Proof. intros H. unfold add_imports. now rewrite H. Qed.

(** C10.  A text without the sentinel, without a line that starts with
    [import ] and without a line that starts with [package ] comes back
    from [add_imports] unchanged: nothing is inserted. *)
Theorem add_imports_fallback (content : str) :
  str_in import_error content = false ->
  Forall (fun line => startswith line (lit "import ") = false)
         (split nl content) ->
  Forall (fun line => startswith line (lit "package ") = false)
         (split nl content) ->
  add_imports content = content.
Proof.
  intros Hs Hi Hp.
  destruct (add_imports_lines content Hs)
    as [[b [x [a [Hl [Hx _]]]]] | [[b [x [a [Hl [_ [Hx _]]]]]] | [_ [_ H]]]].
  - rewrite Hl in Hi. apply Forall_elt in Hi.
    unfold is_import in Hx. congruence.
  - rewrite Hl in Hp. apply Forall_elt in Hp.
    unfold is_package in Hx. congruence.
  - exact H.
Qed.

Lemma add_imports_fallback_witness :
  add_imports (lit "object Main" ++ [nl] ++ lit "  val x = 1") =
  lit "object Main" ++ [nl] ++ lit "  val x = 1".
Proof.
  apply add_imports_fallback.
  - vm_compute. reflexivity.
  - vm_compute. repeat constructor.
  - vm_compute. repeat constructor.
Defined.

(** C5.  In a text without the sentinel that has a line starting with
    [import ], the two new lines come right after the last such line, the
    [error._] import first, and a second run of [add_imports] changes
    nothing. *)
Theorem import_injection (content : str) :
  str_in import_error content = false ->
  Exists (fun line => startswith line (lit "import ") = true)
         (split nl content) ->
  (exists before last_import after,
      split nl content = before ++ last_import :: after /\
      startswith last_import (lit "import ") = true /\
      Forall (fun line => startswith line (lit "import ") = false) after /\
      split nl (add_imports content) =
        before ++ last_import :: import_error :: import_handling :: after) /\
  add_imports (add_imports content) = add_imports content.
Proof.
  intros Hs He.
  destruct (add_imports_lines content Hs)
    as [[b [x [a [Hl [Hx [Ha [Hadd Hsplit]]]]]]] | [[b [x [a [_ [Hni _]]]]] | [Hni _]]].
  - split.
    + exists b, x, a. repeat split; assumption.
    + apply add_imports_sentinel. rewrite Hadd.
      apply str_in_spec. apply join_in.
      apply in_or_app. right. right. now left.
  - exfalso. apply Exists_exists in He. destruct He as [l [Hin Hl]].
    rewrite Forall_forall in Hni. specialize (Hni l Hin).
    unfold is_import in Hni. congruence.
  - exfalso. apply Exists_exists in He. destruct He as [l [Hin Hl]].
    rewrite Forall_forall in Hni. specialize (Hni l Hin).
    unfold is_import in Hni. congruence.
Qed.

Lemma import_injection_witness :
  (exists before last_import after,
      split nl two_imports = before ++ last_import :: after /\
      startswith last_import (lit "import ") = true /\
      Forall (fun line => startswith line (lit "import ") = false) after /\
      split nl (add_imports two_imports) =
        before ++ last_import :: import_error :: import_handling :: after) /\
  add_imports (add_imports two_imports) = add_imports two_imports.
Proof.
  apply import_injection.
  - vm_compute. reflexivity.
  - vm_compute. apply Exists_cons_tl. apply Exists_cons_hd. reflexivity.
Defined.

(** C8 fails on the code.  [add_imports] tests only for the sentinel
    before it inserts both lines: a text that already has the
    [ErrorHandling._] import, once, but not the sentinel gets that line a
    second time, so the output has a duplicate import that the input did
    not have. *)
Theorem import_handling_added_twice :
  str_in import_error handling_only = false /\
  count_line import_error handling_only = 0 /\
  count_line import_handling handling_only = 1 /\
  split nl (add_imports handling_only) =
    [import_handling; import_error; import_handling; lit "class A"] /\
  count_line import_handling (add_imports handling_only) = 2.
Proof. repeat split; vm_compute; reflexivity. Qed.

End ImportSpec.

(* ------------------------------------------------------------------ *)
(** ** Facts about the matcher and the scan *)

Module ReFacts.
Import Py Re PyFacts.

Lemma firstn_matched (A : Type) (a b : list A) :
  firstn (List.length (a ++ b) - List.length b) (a ++ b) = a.
Proof.
  rewrite length_app, Nat.add_sub.
  rewrite firstn_app, Nat.sub_diag, firstn_all. simpl. apply app_nil_r.
Qed.

Lemma cons_inv (A : Type) (x y : A) (a b : list A) :
  x :: a = y :: b -> x = y /\ a = b.
Proof. intros H. injection H as -> ->. now split. Qed.

Lemma firstn_prefix (A : Type) (a b : list A) (n : nat) :
  n = List.length a -> firstn n (a ++ b) = a.
Proof.
  intros ->. rewrite firstn_app, Nat.sub_diag, firstn_all. simpl.
  apply app_nil_r.
Qed.

(** *** Repetition *)

Section Star.
Variable cls : ascii -> bool.
Variable k : str -> option mresult.

(** Whatever [star_k] returns was returned by the continuation after a run
    of characters of the class. *)
Lemma star_k_sound (s : str) (r : mresult) :
  star_k cls k s = Some r ->
  exists a b, s = a ++ b /\ Forall (fun c => cls c = true) a /\ k b = Some r.
Proof.
  induction s as [|c s IH]; cbn [star_k]; intros H.
  - exists [], []. auto.
  - destruct (cls c) eqn:Ec.
    + destruct (star_k cls k s) as [r'|] eqn:Es.
      * injection H as ->. destruct (IH eq_refl) as [a [b [-> [Ha Hk]]]].
        exists (c :: a), b. repeat split; auto.
      * exists [], (c :: s). auto.
    + exists [], (c :: s). auto.
Qed.

(** If the continuation can succeed after some run of the class, the
    repetition succeeds. *)
Lemma star_k_some (a b : str) :
  Forall (fun c => cls c = true) a -> k b <> None ->
  star_k cls k (a ++ b) <> None.
Proof.
  induction a as [|c a IH]; intros Ha Hk; cbn [app].
  - destruct b as [|c b]; cbn [star_k]; [assumption|].
    destruct (cls c); [|assumption].
    destruct (star_k cls k b); [discriminate | assumption].
  - inversion Ha as [|? ? Hc Ha']; subst. cbn [star_k]. rewrite Hc.
    specialize (IH Ha' Hk).
    destruct (star_k cls k (a ++ b)); [discriminate | contradiction].
Qed.

(** Greedy: when the run ends at a character outside the class (or at the
    end of the input) and the continuation succeeds there, that is the
    result. *)
Lemma star_k_greedy (a b : str) (r : mresult) :
  Forall (fun c => cls c = true) a ->
  match b with [] => True | c :: _ => cls c = false end ->
  k b = Some r ->
  star_k cls k (a ++ b) = Some r.
Proof.
  induction a as [|c a IH]; intros Ha Hb Hk; cbn [app].
  - destruct b as [|c b]; cbn [star_k]; [assumption|]. now rewrite Hb.
  - inversion Ha as [|? ? Hc Ha']; subst. cbn [star_k]. rewrite Hc.
    now rewrite (IH Ha' Hb Hk).
Qed.

End Star.

(** *** Literal runs *)

Lemma bt_lits (l : str) (p : pattern) (gopen grp s : str) :
  bt (map Lit l ++ p) gopen grp (l ++ s) = bt p gopen grp s.
Proof.
  induction l as [|c l IH]; cbn [map app bt]; [reflexivity|].
  now rewrite Ascii.eqb_refl.
Qed.

Lemma bt_lits_inv (l : str) (p : pattern) (gopen grp s : str) (r : mresult) :
  bt (map Lit l ++ p) gopen grp s = Some r ->
  exists s', s = l ++ s' /\ bt p gopen grp s' = Some r.
Proof.
  revert s; induction l as [|c l IH]; intros s; cbn [map app bt]; intros H.
  - now exists s.
  - destruct s as [|x s]; [discriminate|].
    destruct (Ascii.eqb x c) eqn:E; [|discriminate].
    apply Ascii.eqb_eq in E. subst x.
    destruct (IH _ H) as [s' [-> Hs']]. now exists s'.
Qed.

Lemma bt_lits_startswith (l : str) (p : pattern) (gopen grp s : str) (r : mresult) :
  bt (map Lit l ++ p) gopen grp s = Some r -> startswith s l = true.
Proof.
  intros H. destruct (bt_lits_inv _ _ _ _ _ H) as [s' [-> _]].
  apply startswith_app.
Qed.

(** *** What a match consumes *)

Lemma bt_suffix (p : pattern) (gopen grp s g rest : str) :
  bt p gopen grp s = Some (g, rest) -> exists m, s = m ++ rest.
Proof.
  revert gopen grp s.
  induction p as [|i p IH]; intros gopen grp s H; cbn [bt] in H.
  - injection H as _ ->. now exists [].
  - destruct i as [c | cls | cls | | ].
    + destruct s as [|x s]; [discriminate|].
      destruct (Ascii.eqb x c); [|discriminate].
      destruct (IH _ _ _ H) as [m ->]. now exists (x :: m).
    + destruct (star_k_sound _ _ _ H) as [a [b [-> [_ Hk]]]].
      destruct (IH _ _ _ Hk) as [m ->]. exists (a ++ m). now rewrite app_assoc.
    + destruct s as [|x s]; [discriminate|].
      destruct (cls x); [|discriminate].
      destruct (star_k_sound _ _ _ H) as [a [b [-> [_ Hk]]]].
      destruct (IH _ _ _ Hk) as [m ->]. exists (x :: a ++ m).
      cbn [app]. now rewrite app_assoc.
    + exact (IH _ _ _ H).
    + exact (IH _ _ _ H).
Qed.

(** A pattern that begins with a literal consumes at least that character. *)
Lemma re_match_lit_suffix (c : ascii) (p : pattern) (s g rest : str) :
  re_match (Lit c :: p) s = Some (g, rest) -> exists m, s = c :: m ++ rest.
Proof.
  unfold re_match. cbn [bt]. intros H.
  destruct s as [|x s]; [discriminate|].
  destruct (Ascii.eqb x c) eqn:E; [|discriminate].
  apply Ascii.eqb_eq in E. subst x.
  destruct (bt_suffix _ _ _ _ H) as [m ->]. now exists m.
Qed.

Lemma re_match_lit_head (c x : ascii) (p : pattern) (s : str) (r : mresult) :
  re_match (Lit c :: p) (x :: s) = Some r -> x = c.
Proof.
  unfold re_match. cbn [bt]. intros H.
  destruct (Ascii.eqb x c) eqn:E; [|discriminate]. now apply Ascii.eqb_eq.
Qed.

Lemma re_match_lit_nil (c : ascii) (p : pattern) :
  re_match (Lit c :: p) [] = None.
Proof. reflexivity. Qed.

(** *** The scan *)

Section Scan.
Variable p : pattern.
Variable t : template.

Lemma sub_from_skip (a b : str) :
  sub_from p t (List.length a) (a ++ b) = sub_from p t 0 b.
Proof. induction a as [|c a IH]; [reflexivity | exact IH]. Qed.

Lemma groups_from_skip (a b : str) :
  groups_from p (List.length a) (a ++ b) = groups_from p 0 b.
Proof. induction a as [|c a IH]; [reflexivity | exact IH]. Qed.

Lemma sub_nil : sub p t [] = [].
Proof. reflexivity. Qed.

Lemma sub_none (c : ascii) (s : str) :
  re_match p (c :: s) = None -> sub p t (c :: s) = c :: sub p t s.
Proof. intros H. unfold sub. cbn [sub_from]. now rewrite H. Qed.

Lemma groups_none (c : ascii) (s : str) :
  re_match p (c :: s) = None -> groups p (c :: s) = groups p s.
Proof. intros H. unfold groups. cbn [groups_from]. now rewrite H. Qed.

Lemma sub_some (c : ascii) (m g rest : str) :
  re_match p (c :: m ++ rest) = Some (g, rest) ->
  sub p t (c :: m ++ rest) = expand t g ++ sub p t rest.
Proof.
  intros H. unfold sub. cbn [sub_from]. rewrite H.
  rewrite length_app, Nat.add_sub. now rewrite sub_from_skip.
Qed.

Lemma groups_some (c : ascii) (m g rest : str) :
  re_match p (c :: m ++ rest) = Some (g, rest) ->
  groups p (c :: m ++ rest) = g :: groups p rest.
Proof.
  intros H. unfold groups. cbn [groups_from]. rewrite H.
  rewrite length_app, Nat.add_sub. now rewrite groups_from_skip.
Qed.

Lemma search_cons (c : ascii) (s : str) :
  search p (c :: s) = false <-> re_match p (c :: s) = None /\ search p s = false.
Proof.
  cbn [search]. destruct (re_match p (c :: s)).
  - split; [discriminate | intros [H _]; discriminate].
  - split; [now split | now intros [_ H]].
Qed.

(** A text in which the pattern is not found is left as it is. *)
Lemma sub_not_found (s : str) : search p s = false -> sub p t s = s.
Proof.
  induction s as [|c s IH]; intros H; [reflexivity|].
  apply search_cons in H. destruct H as [Hm Hs].
  rewrite sub_none by assumption. now rewrite IH.
Qed.

(** A prefix in which no match starts is copied. *)
Lemma sub_copy_prefix (pre s : str) :
  (forall i, i < List.length pre -> re_match p (skipn i (pre ++ s)) = None) ->
  sub p t (pre ++ s) = pre ++ sub p t s.
Proof.
  induction pre as [|c pre IH]; intros H; [reflexivity|].
  cbn [app]. rewrite sub_none.
  - rewrite IH; [reflexivity|]. intros i Hi.
    apply (H (S i)). simpl. lia.
  - apply (H 0). simpl. lia.
Qed.

End Scan.

(** Induction along the scan of [re.sub], for a pattern that begins with a
    literal: the text is empty, or its first character is copied, or a
    match is replaced and the scan resumes after it. *)
Lemma scan_ind (c0 : ascii) (p : pattern) (Q : str -> Prop) :
  Q [] ->
  (forall c s, re_match (Lit c0 :: p) (c :: s) = None -> Q s -> Q (c :: s)) ->
  (forall m g rest,
      re_match (Lit c0 :: p) (c0 :: m ++ rest) = Some (g, rest) ->
      Q rest -> Q (c0 :: m ++ rest)) ->
  forall s, Q s.
Proof.
  intros Hnil Hnone Hsome s.
  assert (H : forall n s, List.length s <= n -> Q s).
  { clear s. induction n as [|n IH]; intros s Hlen.
    - destruct s; [exact Hnil | simpl in Hlen; lia].
    - destruct s as [|c s]; [exact Hnil|].
      destruct (re_match (Lit c0 :: p) (c :: s)) as [[g rest]|] eqn:E.
      + destruct (@re_match_lit_suffix _ _ _ _ _ E) as [m Hm].
        rewrite Hm in E |- *. apply (Hsome m g rest E). apply IH.
        rewrite Hm in Hlen. simpl in Hlen. rewrite length_app in Hlen. lia.
      + apply Hnone; [exact E|]. apply IH. simpl in Hlen. lia. }
  apply (H (List.length s)). lia.
Qed.

End ReFacts.

(* ------------------------------------------------------------------ *)
(** ** The rewriter: path classification and the Left pattern *)

Module RewriterSpec.
Import Py Re Migrate Notions Examples PyFacts ReFacts.

(** The if/elif chain is the first-match lookup in [keyword_rules]. *)
Lemma rewrite_left_classify (filepath content : str) :
  rewrite_left filepath content =
  sub re_left (left_template (classify filepath)) content.
Proof.
  unfold rewrite_left, classify, keyword_rules.
  cbn [first_rule rule_matches existsb].
  repeat (match goal with
          | |- context [str_in ?k (lower filepath)] =>
              destruct (str_in k (lower filepath))
          end; try reflexivity).
Qed.

(** [Left\(([^)]+)\)] matches from [Left(] to the first closing
    parenthesis, whatever else the argument holds. *)
Lemma re_left_match (arg post : str) :
  arg <> [] -> ~ In ")"%char arg ->
  re_match re_left (lit "Left(" ++ arg ++ ")"%char :: post) = Some (arg, post).
Proof.
  intros Hne Hno. unfold re_match, re_left, lits. rewrite bt_lits.
  destruct arg as [|x arg]; [contradiction|].
  cbn [bt app].
  assert (Hcls : Forall (fun c => not_char ")" c = true) (x :: arg)).
  { apply Forall_forall. intros c Hc. unfold not_char.
    destruct (Ascii.eqb c ")") eqn:E; [|reflexivity].
    apply Ascii.eqb_eq in E. subst. contradiction. }
  inversion Hcls as [|? ? Hx Harg]; subst. rewrite Hx.
  apply star_k_greedy; [assumption | reflexivity |].
  cbn [bt]. rewrite Ascii.eqb_refl.
  change (x :: arg ++ ")"%char :: post) with ((x :: arg) ++ ")"%char :: post).
  now rewrite firstn_matched.
Qed.

Lemma re_left_startswith (s : str) (r : mresult) :
  re_match re_left s = Some r -> startswith s (lit "Left(") = true.
Proof. apply bt_lits_startswith. Qed.

(** [Left(] cannot begin inside a text that does not contain it and run
    into a following [Left(]. *)
Lemma left_no_overlap (u w : str) :
  u <> [] -> startswith u (lit "Left(") = false ->
  startswith (u ++ lit "Left(" ++ w) (lit "Left(") = false.
Proof.
  intros Hne H.
  destruct u as [|c1 [|c2 [|c3 [|c4 [|c5 u]]]]]; [contradiction|..];
    cbn in H |- *;
    repeat match goal with
           | |- context [Ascii.eqb ?a ?b] =>
               destruct (Ascii.eqb a b) eqn:?; cbn in *; try reflexivity;
               try discriminate
           end.
  destruct u; discriminate H.
Qed.

Lemma sub_left_prefix (t : template) (pre w : str) :
  str_in (lit "Left(") pre = false ->
  sub re_left t (pre ++ lit "Left(" ++ w) =
  pre ++ sub re_left t (lit "Left(" ++ w).
Proof.
  induction pre as [|c pre IH]; intros H; [reflexivity|].
  apply str_in_tail_false in H. destruct H as [Hs Hin].
  cbn [app]. rewrite sub_none; [now rewrite IH|].
  destruct (re_match re_left (c :: pre ++ lit "Left(" ++ w)) as [r|] eqn:E;
    [|reflexivity].
  apply re_left_startswith in E.
  change (c :: pre ++ lit "Left(" ++ w)
    with ((c :: pre) ++ lit "Left(" ++ w) in E.
  rewrite left_no_overlap in E; [discriminate | discriminate | assumption].
Qed.

(** C9, as the code has it.  Where the first [Left(] of a text is followed
    by an argument with nested parentheses, the pattern does match: the
    span runs from [Left(] to the first closing parenthesis, and the text
    between them is what gets wrapped; the scan goes on after that
    parenthesis. *)
Theorem left_wraps_up_to_first_paren (filepath pre arg post : str) :
  str_in (lit "Left(") pre = false ->
  arg <> [] -> ~ In ")"%char arg ->
  re_match re_left (lit "Left(" ++ arg ++ ")"%char :: post) = Some (arg, post) /\
  rewrite_left filepath (pre ++ lit "Left(" ++ arg ++ ")"%char :: post) =
  pre ++ expand (left_template (classify filepath)) arg ++
  rewrite_left filepath post.
Proof.
  intros Hpre Hne Hno. split; [now apply re_left_match|].
  rewrite !rewrite_left_classify.
  rewrite sub_left_prefix by assumption. f_equal.
  assert (E : lit "Left(" ++ arg ++ ")"%char :: post =
              "L"%char :: (lit "eft(" ++ arg ++ [")"%char]) ++ post)
    by (cbn; rewrite <- app_assoc; reflexivity).
  pose proof (re_left_match post Hne Hno) as Hm.
  rewrite E in Hm |- *. now apply sub_some.
Qed.

Lemma left_wraps_up_to_first_paren_witness :
  re_match re_left (lit "Left(" ++ lit "f(a" ++ ")"%char :: lit " + g(b))") =
    Some (lit "f(a", lit " + g(b))") /\
  rewrite_left (lit "Game.scala")
    (lit "val r = " ++ lit "Left(" ++ lit "f(a" ++ ")"%char :: lit " + g(b))") =
  lit "val r = " ++
  expand (left_template (classify (lit "Game.scala"))) (lit "f(a") ++
  rewrite_left (lit "Game.scala") (lit " + g(b))").
Proof.
  apply left_wraps_up_to_first_paren.
  - vm_compute. reflexivity.
  - discriminate.
  - vm_compute. intros H. repeat (destruct H as [H | H]; [discriminate H|]).
    exact H.
Defined.

(** C9 as stated fails: the expression is matched and rewritten, and the
    wrapper closes in the middle of the argument. *)
Lemma nested_left_is_rewritten :
  search re_left (lit "Left(f(a) + g(b))") = true /\
  rewrite_left (lit "Game.scala") (lit "Left(f(a) + g(b))") =
    lit "Left(GameStateError(f(a)) + g(b))" /\
  rewrite_left (lit "Game.scala") (lit "Left(f(a) + g(b))") <>
    lit "Left(f(a) + g(b))".
Proof.
  split; [vm_compute; reflexivity|].
  split; [vm_compute; reflexivity|].
  vm_compute. discriminate.
Qed.

(** *** The order of the rules *)

(** The eight templates rewrite [Left(e)] in eight different ways. *)
Lemma left_template_probe (c c' : category) :
  sub re_left (left_template c) (lit "Left(e)") =
  sub re_left (left_template c') (lit "Left(e)") ->
  c = c'.
Proof.
  destruct c, c'; intros H; try reflexivity; vm_compute in H;
    discriminate H.
Qed.

(** The chain applies the template of a category exactly when the path is
    classified under it. *)
Lemma applies_classify (filepath : str) (c : category) :
  applies filepath (left_template c) <-> classify filepath = c.
Proof.
  unfold applies. split.
  - intros H. apply left_template_probe.
    rewrite <- rewrite_left_classify. apply H.
  - intros <- content. apply rewrite_left_classify.
Qed.

Ltac keyword_row :=
  unfold applies, rewrite_left, has_keyword; intros;
  repeat match goal with
         | H : _ || _ = false |- _ =>
             apply orb_false_iff in H; destruct H
         end;
  repeat match goal with
         | H : str_in _ _ = _ |- _ => rewrite ?H; clear H
         | H : _ || _ = true |- _ => rewrite ?H; clear H
         end;
  reflexivity.

(** C3, as the code has it.  The rule applied to a file is the first one,
    in the order save/persistence, parse/parser, valid, music, tts/speech,
    image, network/api, whose keyword occurs in the lowercased path, and
    the catch-all when none occurs; exactly one rule applies per file.  In
    particular, for a path that contains both [parse] and [network] the
    network rule is never applied: the parse rule is applied when the
    path contains neither [save] nor [persistence], and the persistence
    rule when it contains one of them. *)
Theorem rule_priority (filepath : str) :
  let has := has_keyword filepath in
  let applies := applies filepath in
  ((has "save" || has "persistence" = true -> applies tpl_persistence) /\
   (has "save" || has "persistence" = false ->
    has "parse" || has "parser" = true -> applies tpl_parse) /\
   (has "save" || has "persistence" || has "parse" || has "parser" = false ->
    has "valid" = true -> applies tpl_validation) /\
   (has "save" || has "persistence" || has "parse" || has "parser" ||
    has "valid" = false ->
    has "music" = true -> applies tpl_music) /\
   (has "save" || has "persistence" || has "parse" || has "parser" ||
    has "valid" || has "music" = false ->
    has "tts" || has "speech" = true -> applies tpl_audio) /\
   (has "save" || has "persistence" || has "parse" || has "parser" ||
    has "valid" || has "music" || has "tts" || has "speech" = false ->
    has "image" = true -> applies tpl_image) /\
   (has "save" || has "persistence" || has "parse" || has "parser" ||
    has "valid" || has "music" || has "tts" || has "speech" ||
    has "image" = false ->
    has "network" || has "api" = true -> applies tpl_network) /\
   (has "save" || has "persistence" || has "parse" || has "parser" ||
    has "valid" || has "music" || has "tts" || has "speech" ||
    has "image" || has "network" || has "api" = false ->
    applies tpl_game_state))%string /\
  (exists! c, applies (left_template c)) /\
  (has "parse"%string = true -> has "network"%string = true ->
   ~ applies tpl_network /\
   (has "save" || has "persistence" = false -> applies tpl_parse)%string /\
   (has "save" || has "persistence" = true ->
    applies tpl_persistence)%string).
Proof.
  cbv zeta. split; [|split].
  - repeat split; keyword_row.
  - exists (classify filepath). split.
    + now apply applies_classify.
    + intros c' H. now apply applies_classify.
  - intros Hp Hn. split; [|split].
    + intros H. change tpl_network with (left_template Network) in H.
      apply applies_classify in H. revert H.
      unfold classify, keyword_rules. cbn [first_rule rule_matches existsb].
      unfold has_keyword in Hp. rewrite Hp.
      destruct (str_in (lit "save") (lower filepath));
        destruct (str_in (lit "persistence") (lower filepath));
        discriminate.
    + unfold has_keyword in Hp. intros H. revert H.
      unfold applies, rewrite_left, has_keyword.
      intros H content. now rewrite H, Hp.
    + unfold applies, rewrite_left, has_keyword.
      intros H content. now rewrite H.
Qed.

Lemma rule_priority_witness :
  ~ applies (lit "net/NetworkParser.scala") tpl_network /\
  applies (lit "net/NetworkParser.scala") tpl_parse.
Proof.
  destruct (rule_priority (lit "net/NetworkParser.scala")) as [_ [_ H]].
  assert (Hp : has_keyword (lit "net/NetworkParser.scala") "parse" = true)
    by (vm_compute; reflexivity).
  assert (Hn : has_keyword (lit "net/NetworkParser.scala") "network" = true)
    by (vm_compute; reflexivity).
  destruct (H Hp Hn) as [H1 [H2 _]].
  split; [exact H1 | apply H2; vm_compute; reflexivity].
Defined.

(** C3 as stated fails for a path that also contains [save]: the
    persistence rule is applied, not the parse rule. *)
Lemma parse_network_under_save :
  str_in (lit "parse") (lower (lit "save/ParseNetwork.scala")) = true /\
  str_in (lit "network") (lower (lit "save/ParseNetwork.scala")) = true /\
  classify (lit "save/ParseNetwork.scala") = Persistence /\
  rewrite_left (lit "save/ParseNetwork.scala") (lit "Left(e)") =
    lit "Left(PersistenceError(e, " ++ [dquote] ++ lit "operation" ++
    [dquote] ++ lit "))" /\
  rewrite_left (lit "save/ParseNetwork.scala") (lit "Left(e)") <>
    sub re_left tpl_parse (lit "Left(e)").
Proof.
  repeat (split; [vm_compute; reflexivity|]).
  vm_compute. discriminate.
Qed.

End RewriterSpec.

(* ------------------------------------------------------------------ *)
(** ** migrate_file and the driver loop *)

Module MigrateSpec.
Import Py Re Migrate Notions Examples PyFacts ReFacts.

(** C4.  For a file whose path contains [persistence] and whose text is
    the line [import foo.Bar] followed by
    [def save(x: Int): Either[String, Unit] = Left("boom")], the two
    sentinel imports are inserted right after [import foo.Bar], the
    signature becomes [SzorkResult[Unit]] and the failure becomes
    [Left(PersistenceError("boom", "operation"))]; the file is written
    back with that text. *)
Theorem persistence_store_example (filepath : str) (w : world) :
  str_in (lit "persistence") (lower filepath) = true ->
  denylisted filepath = false ->
  files w filepath = Some store_scala ->
  split nl (add_imports store_scala) =
    [lit "import foo.Bar"; import_error; import_handling;
     lit "def save(x: Int): Either[String, Unit] = Left(" ++ [dquote] ++
     lit "boom" ++ [dquote] ++ lit ")"] /\
  transform filepath store_scala = store_scala_migrated /\
  migrate_file filepath w =
    (Returned true,
     World (write_file filepath store_scala_migrated (files w))
           ((log w ++ [EvRead filepath]) ++
            [EvWrite filepath store_scala_migrated;
             EvPrint (lit "Migrated: " ++ filepath)])).
Proof.
  intros Hp Hd Hf.
  assert (Ht : transform filepath store_scala = store_scala_migrated).
  { unfold transform, rewrite_left. rewrite Hp, orb_true_r.
    vm_compute. reflexivity. }
  split; [vm_compute; reflexivity|]. split; [exact Ht|].
  unfold migrate_file. rewrite Hd, Hf. cbn [files log].
  replace (needs_migration store_scala) with true by (vm_compute; reflexivity).
  cbn [negb]. rewrite Ht.
  replace (str_eqb store_scala_migrated store_scala) with false
    by (vm_compute; reflexivity).
  reflexivity.
Qed.

Lemma persistence_store_example_witness :
  split nl (add_imports store_scala) =
    [lit "import foo.Bar"; import_error; import_handling;
     lit "def save(x: Int): Either[String, Unit] = Left(" ++ [dquote] ++
     lit "boom" ++ [dquote] ++ lit ")"] /\
  transform store_path store_scala = store_scala_migrated /\
  migrate_file store_path store_world =
    (Returned true,
     World (write_file store_path store_scala_migrated (files store_world))
           ((log store_world ++ [EvRead store_path]) ++
            [EvWrite store_path store_scala_migrated;
             EvPrint (lit "Migrated: " ++ store_path)])).
Proof.
  apply persistence_store_example; vm_compute; reflexivity.
Defined.

(** *** The denylist *)

(** C7.  For a path that contains [error/SzorkError.scala] or
    [error/ErrorHandling.scala], [migrate_file] returns False and leaves
    the world as it was: no read, no write, no print, whatever the file
    holds. *)
Theorem denylist_untouched (filepath : str) (w : world) :
  str_in (lit "error/SzorkError.scala") filepath = true \/
  str_in (lit "error/ErrorHandling.scala") filepath = true ->
  migrate_file filepath w = (Returned false, w).
Proof.
  intros H. unfold migrate_file, denylisted.
  destruct H as [H | H]; rewrite H; [|rewrite orb_true_r]; reflexivity.
Qed.

Lemma denylist_untouched_witness :
  migrate_file szork_error_path szork_error_world =
  (Returned false, szork_error_world).
Proof.
  apply denylist_untouched. left. vm_compute. reflexivity.
Defined.

(** *** The writer *)

(** C6.  For a file that is read, let [final] be the text [migrate_file]
    ends with (the transformed text, or the original when the migration
    test fails).  If [final] is the original text, the call returns False,
    every file holds what it held, only the read is logged, and the loop
    of [main] keeps its count.  Otherwise the call returns True, the file
    at [filepath] holds [final] and every other file what it held, the
    write and the report of the path are logged after the read, and the
    loop of [main] adds one to its count. *)
Theorem writer_contract (filepath content : str) (w : world) :
  denylisted filepath = false ->
  files w filepath = Some content ->
  let final :=
    if needs_migration content then transform filepath content else content in
  let r := migrate_file filepath w in
  (final = content ->
     fst r = Returned false /\
     (forall q, files (snd r) q = files w q) /\
     log (snd r) = log w ++ [EvRead filepath] /\
     forall root file names n,
       endswith file (lit ".scala") = true ->
       path_join root file = filepath ->
       main_files root [file] w n = (Returned n, snd r) /\
       main_files root (file :: names) w n =
       main_files root names (snd r) n) /\
  (final <> content ->
     fst r = Returned true /\
     files (snd r) filepath = Some final /\
     (forall q, q <> filepath -> files (snd r) q = files w q) /\
     log (snd r) =
       log w ++ [EvRead filepath; EvWrite filepath final;
                 EvPrint (lit "Migrated: " ++ filepath)] /\
     forall root file names n,
       endswith file (lit ".scala") = true ->
       path_join root file = filepath ->
       main_files root [file] w n = (Returned (n + 1), snd r) /\
       main_files root (file :: names) w n =
       main_files root names (snd r) (n + 1)).
Proof.
  intros Hd Hf final r.
  assert (Hsame : final = content ->
                  r = (Returned false,
                       World (files w) (log w ++ [EvRead filepath]))).
  { intros He. subst r. unfold migrate_file. rewrite Hd, Hf. subst final.
    destruct (needs_migration content); cbn [negb]; [|reflexivity].
    rewrite He. replace (str_eqb content content) with true
      by (symmetry; now apply str_eqb_spec).
    reflexivity. }
  assert (Hdiff : final <> content ->
                  r = (Returned true,
                       World (write_file filepath final (files w))
                             ((log w ++ [EvRead filepath]) ++
                              [EvWrite filepath final;
                               EvPrint (lit "Migrated: " ++ filepath)]))).
  { intros Hn. subst r. unfold migrate_file. rewrite Hd, Hf. subst final.
    destruct (needs_migration content); cbn [negb]; [|contradiction].
    destruct (str_eqb (transform filepath content) content) eqn:E;
      [apply str_eqb_spec in E; contradiction | reflexivity]. }
  split; intros H.
  - specialize (Hsame H). clear Hdiff.
    repeat split.
    + now rewrite Hsame.
    + intros q. now rewrite Hsame.
    + now rewrite Hsame.
    + cbn [main_files]. rewrite H0, H1. fold r. now rewrite Hsame.
    + cbn [main_files]. rewrite H0, H1. fold r. now rewrite Hsame.
  - specialize (Hdiff H). clear Hsame.
    repeat split.
    + now rewrite Hdiff.
    + rewrite Hdiff. cbn [snd files]. unfold write_file.
      replace (str_eqb filepath filepath) with true
        by (symmetry; now apply str_eqb_spec).
      reflexivity.
    + intros q Hq. rewrite Hdiff. cbn [snd files]. unfold write_file.
      destruct (str_eqb q filepath) eqn:E; [|reflexivity].
      apply str_eqb_spec in E. contradiction.
    + rewrite Hdiff. cbn [snd log]. now rewrite <- app_assoc.
    + cbn [main_files]. rewrite H0, H1. fold r. now rewrite Hdiff.
    + cbn [main_files]. rewrite H0, H1. fold r. now rewrite Hdiff.
Qed.

Lemma writer_contract_witness :
  (fst (migrate_file types_path types_world) = Returned false /\
   (forall q, files (snd (migrate_file types_path types_world)) q =
              files types_world q) /\
   log (snd (migrate_file types_path types_world)) = [EvRead types_path]) /\
  (fst (migrate_file store_path store_world) = Returned true /\
   files (snd (migrate_file store_path store_world)) store_path =
     Some store_scala_migrated /\
   fst (main_files store_dir [lit "Store.scala"] store_world 0) = Returned 1).
Proof.
  split.
  - assert (Hd : denylisted types_path = false) by (vm_compute; reflexivity).
    assert (Hf : files types_world types_path = Some types_scala)
      by (vm_compute; reflexivity).
    destruct (@writer_contract types_path types_scala types_world Hd Hf)
      as [H _].
    assert (He : (if needs_migration types_scala
                  then transform types_path types_scala else types_scala) =
                 types_scala) by (vm_compute; reflexivity).
    destruct (H He) as [H1 [H2 [H3 _]]].
    split; [exact H1|]. split; [exact H2 | exact H3].
  - assert (Hd : denylisted store_path = false) by (vm_compute; reflexivity).
    assert (Hf : files store_world store_path = Some store_scala)
      by (vm_compute; reflexivity).
    destruct (@writer_contract store_path store_scala store_world Hd Hf)
      as [_ H].
    assert (Hn : (if needs_migration store_scala
                  then transform store_path store_scala else store_scala) <>
                 store_scala) by (vm_compute; discriminate).
    destruct (H Hn) as [H1 [H2 [_ [_ H5]]]].
    split; [exact H1|]. split.
    + rewrite H2. vm_compute. reflexivity.
    + assert (He : endswith (lit "Store.scala") (lit ".scala") = true)
        by (vm_compute; reflexivity).
      assert (Hj : path_join store_dir (lit "Store.scala") = store_path)
        by (vm_compute; reflexivity).
      destruct (H5 store_dir (lit "Store.scala") [] 0 He Hj) as [H6 _].
      now rewrite H6.
Defined.

(** *** A second run *)

(** A file whose migrated text no longer passes the migration test is
    skipped by a second run. *)
Lemma second_run_skips (filepath content : str) (w : world) :
  denylisted filepath = false ->
  files w filepath = Some content ->
  needs_migration content = false ->
  migrate_file filepath w =
  (Returned false, World (files w) (log w ++ [EvRead filepath])).
Proof.
  intros Hd Hf Hn. unfold migrate_file. now rewrite Hd, Hf, Hn.
Qed.

(** C1 fails on the code.  A legacy signature that is not directly after
    a colon passes the migration test but is not rewritten, so the test
    still succeeds on the output of the first run; the second run wraps the
    failure expression once more and writes the file again. *)
Theorem second_run_rewrites_again :
  transform game_path game_scala = game_scala_once /\
  needs_migration game_scala_once = true /\
  transform game_path game_scala_once = game_scala_twice /\
  game_scala_twice <> game_scala_once /\
  fst (migrate_file game_path (game_world game_scala)) = Returned true /\
  files (snd (migrate_file game_path (game_world game_scala))) game_path =
    Some game_scala_once /\
  fst (migrate_file game_path (game_world game_scala_once)) = Returned true /\
  log (snd (migrate_file game_path (game_world game_scala_once))) =
    [EvRead game_path; EvWrite game_path game_scala_twice;
     EvPrint (lit "Migrated: " ++ game_path)].
Proof.
  repeat (split; [vm_compute; reflexivity|]).
  split; [vm_compute; discriminate|].
  repeat (split; [vm_compute; reflexivity|]).
  vm_compute. reflexivity.
Qed.

End MigrateSpec.

(* ------------------------------------------------------------------ *)
(** ** The signature substitution of line 63 *)

Module SignatureSpec.
Import Py Re Migrate Notions Examples PyFacts ReFacts.

Lemma re_either_string_eq :
  re_either_string =
  Lit ":" :: Star is_space :: map Lit either_string ++ sig_tail.
Proof. reflexivity. Qed.

Lemma not_char_true (c x : ascii) : not_char c x = true <-> x <> c.
Proof.
  unfold not_char. destruct (Ascii.eqb x c) eqn:E.
  - apply Ascii.eqb_eq in E. split; [discriminate | contradiction].
  - apply Ascii.eqb_neq in E. split; [auto | reflexivity].
Qed.

Lemma not_char_all (c : ascii) (l : str) :
  Forall (fun x => not_char c x = true) l <-> ~ In c l.
Proof.
  rewrite Forall_forall. split.
  - intros H Hin. apply (proj1 (not_char_true c c) (H c Hin)). reflexivity.
  - intros H x Hx. apply not_char_true. intros ->. contradiction.
Qed.

Lemma space_not_colon (l : str) :
  Forall (fun c => is_space c = true) l -> ~ In ":"%char l.
Proof.
  rewrite Forall_forall. intros H Hin. specialize (H _ Hin). discriminate H.
Qed.

Lemma sig_tail_sound (gopen grp s T rest : str) :
  bt sig_tail gopen grp s = Some (T, rest) ->
  exists ws2,
    s = ws2 ++ T ++ "]"%char :: rest /\
    Forall (fun c => is_space c = true) ws2 /\
    T <> [] /\ ~ In "]"%char T.
Proof.
  unfold sig_tail. cbn [bt]. intros H.
  apply star_k_sound in H. destruct H as [ws2 [b [-> [Hws Hk]]]].
  cbn [bt] in Hk.
  destruct b as [|x b]; [discriminate|].
  destruct (not_char "]" x) eqn:Ex; [|discriminate].
  apply star_k_sound in Hk. destruct Hk as [a2 [b2 [-> [Ha2 Hk]]]].
  cbn [bt] in Hk.
  destruct b2 as [|y b2]; [discriminate|].
  destruct (Ascii.eqb y "]") eqn:Ey; [|discriminate].
  apply Ascii.eqb_eq in Ey. subst y.
  injection Hk as HT ->.
  change (x :: a2 ++ "]"%char :: rest)
    with ((x :: a2) ++ "]"%char :: rest) in HT.
  rewrite firstn_prefix in HT
    by (rewrite length_app; cbn [List.length]; lia).
  subst T.
  exists ws2. repeat split; try assumption; try discriminate.
  apply not_char_all. now constructor.
Qed.

(** What a match of the signature pattern looks like. *)
Lemma either_string_sound (s T rest : str) :
  re_match re_either_string s = Some (T, rest) ->
  exists ws1 ws2,
    s = ":"%char :: ws1 ++ either_string ++ ws2 ++ T ++ "]"%char :: rest /\
    Forall (fun c => is_space c = true) ws1 /\
    Forall (fun c => is_space c = true) ws2 /\
    T <> [] /\ ~ In "]"%char T.
Proof.
  rewrite re_either_string_eq. unfold re_match. cbn [bt]. intros H.
  destruct s as [|x s]; [discriminate|].
  destruct (Ascii.eqb x ":") eqn:E; [|discriminate].
  apply Ascii.eqb_eq in E. subst x.
  apply star_k_sound in H. destruct H as [ws1 [b [-> [Hws1 Hk]]]].
  apply bt_lits_inv in Hk. destruct Hk as [s' [-> Hk]].
  apply sig_tail_sound in Hk. destruct Hk as [ws2 [-> [Hws2 [Hne Hno]]]].
  exists ws1, ws2. repeat split; assumption.
Qed.

(** Every text of that shape is matched, up to its first closing bracket. *)
Lemma either_string_complete (ws1 body rest : str) :
  Forall (fun c => is_space c = true) ws1 ->
  body <> [] -> ~ In "]"%char body ->
  re_match re_either_string
    (":"%char :: ws1 ++ either_string ++ body ++ "]"%char :: rest) <> None.
Proof.
  intros Hws Hne Hno.
  rewrite re_either_string_eq. unfold re_match. cbn [bt].
  rewrite Ascii.eqb_refl. apply star_k_some; [assumption|].
  rewrite bt_lits. unfold sig_tail. cbn [bt].
  change (body ++ "]"%char :: rest) with ([] ++ body ++ "]"%char :: rest).
  apply star_k_some; [constructor|]. cbn [bt].
  destruct body as [|x body]; [contradiction|]. cbn [app].
  apply not_char_all in Hno. inversion Hno as [|? ? Hx Hb]; subst.
  rewrite Hx. apply star_k_some; [assumption|].
  cbn [bt]. rewrite Ascii.eqb_refl. discriminate.
Qed.

(** The group is the type parameter itself when it does not begin with
    white space. *)
Lemma either_string_match (ws1 ws2 : str) (x : ascii) (T rest : str) :
  Forall (fun c => is_space c = true) ws1 ->
  Forall (fun c => is_space c = true) ws2 ->
  is_space x = false -> ~ In "]"%char (x :: T) ->
  re_match re_either_string
    (":"%char :: ws1 ++ either_string ++ ws2 ++ (x :: T) ++ "]"%char :: rest) =
  Some (x :: T, rest).
Proof.
  intros Hws1 Hws2 Hx Hno.
  rewrite re_either_string_eq. unfold re_match. cbn [bt].
  rewrite Ascii.eqb_refl.
  apply star_k_greedy; [assumption | reflexivity |].
  rewrite bt_lits. unfold sig_tail. cbn [bt].
  apply star_k_greedy; [assumption | exact Hx |]. cbn [bt app].
  apply not_char_all in Hno. inversion Hno as [|? ? Hx' HT]; subst.
  rewrite Hx'. apply star_k_greedy; [assumption | reflexivity |].
  cbn [bt]. rewrite Ascii.eqb_refl.
  change (x :: T ++ "]"%char :: rest) with ((x :: T) ++ "]"%char :: rest).
  now rewrite firstn_matched.
Qed.

(** A match whose group has no colon has its only colon in front. *)
Lemma either_string_span (s T rest : str) :
  re_match re_either_string s = Some (T, rest) ->
  ~ In ":"%char T ->
  exists m, s = ":"%char :: m ++ rest /\ ~ In ":"%char m.
Proof.
  intros H HT.
  destruct (either_string_sound _ H) as [ws1 [ws2 [-> [H1 [H2 _]]]]].
  exists (ws1 ++ either_string ++ ws2 ++ T ++ ["]"%char]). split.
  - rewrite <- !app_assoc. reflexivity.
  - rewrite !in_app_iff.
    intros [Hin | [Hin | [Hin | [Hin | Hin]]]].
    + now apply (space_not_colon H1).
    + vm_compute in Hin.
      repeat (destruct Hin as [Hin | Hin]; [discriminate Hin|]). exact Hin.
    + now apply (space_not_colon H2).
    + contradiction.
    + destruct Hin as [Hin | []]. discriminate Hin.
Qed.

Lemma either_string_head (c : ascii) (s : str) (r : mresult) :
  re_match re_either_string (c :: s) = Some r -> c = ":"%char.
Proof. rewrite re_either_string_eq. apply re_match_lit_head. Qed.

Lemma either_string_no_colon (c : ascii) (s : str) :
  c <> ":"%char -> re_match re_either_string (c :: s) = None.
Proof.
  intros Hc. destruct (re_match re_either_string (c :: s)) eqn:E;
    [|reflexivity].
  apply either_string_head in E. contradiction.
Qed.

(** *** The scan with the signature pattern *)

Lemma sig_scan_ind (Q : str -> Prop) :
  Q [] ->
  (forall c s, re_match re_either_string (c :: s) = None -> Q s -> Q (c :: s)) ->
  (forall m g rest,
      re_match re_either_string (":"%char :: m ++ rest) = Some (g, rest) ->
      Q rest -> Q (":"%char :: m ++ rest)) ->
  forall s, Q s.
Proof. rewrite re_either_string_eq. apply scan_ind. Qed.

Lemma either_string_suffix (s g rest : str) :
  re_match re_either_string s = Some (g, rest) ->
  exists m, s = ":"%char :: m ++ rest.
Proof. rewrite re_either_string_eq. apply re_match_lit_suffix. Qed.

Lemma expand_result (g u : str) :
  expand tpl_result g ++ u =
  ":"%char :: (lit " SzorkResult[" ++ g ++ ["]"%char]) ++ u.
Proof.
  unfold tpl_result. cbn [expand]. rewrite app_nil_r.
  change (lit ": SzorkResult[") with (":"%char :: lit " SzorkResult[").
  reflexivity.
Qed.

Lemma result_not_signature (v : str) :
  re_match re_either_string (":"%char :: lit " SzorkResult[" ++ v) = None.
Proof. reflexivity. Qed.

Lemma in_split_first (x : ascii) (l : str) :
  In x l -> exists a b, l = a ++ x :: b /\ ~ In x a.
Proof.
  induction l as [|c l IH]; intros Hin; [contradiction|].
  destruct (ascii_dec c x) as [-> | Hc].
  - exists [], l. split; [reflexivity | intros []].
  - destruct Hin as [-> | Hin]; [contradiction|].
    destruct (IH Hin) as [a [b [-> Ha]]].
    exists (c :: a), b. split; [reflexivity|].
    intros [H | H]; [contradiction | now apply Ha].
Qed.

Section SigScan.
Let P := re_either_string.
Let t := tpl_result.

(** The first character of the output is the first character of the input,
    and a character other than a colon was copied. *)
Lemma sub_sig_cons (s : str) (x : ascii) (u : str) :
  sub P t s = x :: u ->
  exists s1, s = x :: s1 /\ (x <> ":"%char -> u = sub P t s1).
Proof.
  destruct s as [|c s]; [discriminate|]. intros H.
  destruct (re_match P (c :: s)) as [[g rest]|] eqn:E.
  - destruct (either_string_suffix _ E) as [m Hm].
    rewrite Hm in E, H. injection Hm as -> _.
    unfold P, t in *.
    rewrite (@sub_some _ tpl_result _ _ _ _ E), expand_result in H.
    injection H as <- _. exists s. split; [reflexivity | contradiction].
  - unfold P, t in *. rewrite (@sub_none _ tpl_result _ _ E) in H.
    injection H as -> <-.
    exists s. split; reflexivity.
Qed.

(** A colon-free prefix of the output is a prefix of the input. *)
Lemma sub_sig_prefix (q s u : str) :
  ~ In ":"%char q -> sub P t s = q ++ u ->
  exists s0, s = q ++ s0 /\ u = sub P t s0.
Proof.
  revert s; induction q as [|x q IH]; intros s Hq H.
  - exists s. split; [reflexivity | now symmetry].
  - cbn [app] in H. destruct (sub_sig_cons _ H) as [s1 [-> Hu]].
    assert (Hx : x <> ":"%char) by (intros ->; apply Hq; now left).
    specialize (Hu Hx).
    destruct (IH s1) as [s0 [-> Hs0]].
    + intros Hin. apply Hq. now right.
    + now symmetry.
    + exists s0. split; [reflexivity | assumption].
Qed.

(** The substitution adds a closing bracket only where it removed one. *)
Lemma sub_sig_bracket (s : str) :
  In "]"%char (sub P t s) -> In "]"%char s.
Proof.
  induction s as [|c s E IH | m g rest E IH] using sig_scan_ind.
  - intros [].
  - unfold P, t in *. rewrite (@sub_none _ tpl_result _ _ E).
    intros [-> | H]; [now left | right; now apply IH].
  - intros _. destruct (either_string_sound _ E) as [ws1 [ws2 [Hs _]]].
    rewrite Hs. right. rewrite !in_app_iff. do 4 right. now left.
Qed.

Lemma search_no_colon (q u : str) :
  ~ In ":"%char q -> search P u = false -> search P (q ++ u) = false.
Proof.
  induction q as [|x q IH]; intros Hq Hu; [exact Hu|].
  cbn [app]. apply search_cons. split.
  - apply either_string_no_colon. intros ->. apply Hq. now left.
  - apply IH; [|exact Hu]. intros Hin. apply Hq. now right.
Qed.

(** After the substitution the pattern is found nowhere, provided no
    captured type parameter contains a colon. *)
Lemma sub_sig_clean (s : str) :
  Forall (fun g => ~ In ":"%char g) (groups P s) ->
  search P (sub P t s) = false.
Proof.
  induction s as [|c s E IH | m g rest E IH] using sig_scan_ind; intros Hg.
  - reflexivity.
  - unfold P, t in *.
    rewrite (@groups_none _ _ _ E) in Hg. rewrite (@sub_none _ tpl_result _ _ E).
    apply search_cons. split; [|now apply IH].
    destruct (re_match re_either_string (c :: sub re_either_string tpl_result s))
      as [[T' r']|] eqn:E'; [exfalso | reflexivity].
    destruct (either_string_sound _ E') as [ws1 [ws2 [Hs [H1 [H2 [Hne Hno]]]]]].
    apply cons_inv in Hs. destruct Hs as [-> Hs].
    rewrite app_assoc in Hs.
    apply sub_sig_prefix in Hs.
    2:{ rewrite in_app_iff. intros [Hin | Hin].
        - now apply (space_not_colon H1).
        - vm_compute in Hin.
          repeat (destruct Hin as [Hin | Hin]; [discriminate Hin|]).
          exact Hin. }
    destruct Hs as [s0 [-> Hs0]].
    rewrite app_assoc in Hs0.
    destruct (ws2 ++ T') as [|y body] eqn:Eb.
    { apply app_eq_nil in Eb. destruct Eb as [_ Eb]. contradiction. }
    assert (Hy : ~ In "]"%char (y :: body)).
    { rewrite <- Eb, in_app_iff. intros [Hin | Hin]; [|contradiction].
      rewrite Forall_forall in H2. specialize (H2 _ Hin). discriminate H2. }
    cbn [app] in Hs0. symmetry in Hs0.
    destruct (sub_sig_cons _ Hs0) as [s1 [-> _]].
    assert (Hin : In "]"%char (y :: s1)).
    { apply sub_sig_bracket. unfold P, t in Hs0 |- *. rewrite Hs0.
      right. rewrite in_app_iff. right. now left. }
    destruct Hin as [-> | Hin]; [apply Hy; now left|].
    destruct (in_split_first _ _ Hin) as [a [b [-> Ha]]].
    rewrite <- app_assoc in E.
    apply (@either_string_complete ws1 (y :: a) b); try assumption.
    + discriminate.
    + intros [-> | Hin']; [apply Hy; now left | contradiction].
  - unfold P, t in *.
    rewrite (@groups_some _ _ _ _ _ E) in Hg. inversion Hg as [|? ? Hg1 Hg2]; subst.
    rewrite (@sub_some _ tpl_result _ _ _ _ E), expand_result.
    apply search_cons. split.
    + rewrite <- app_assoc. apply result_not_signature.
    + apply search_no_colon; [|now apply IH].
      rewrite !in_app_iff. intros [Hin | [Hin | Hin]].
      * vm_compute in Hin.
        repeat (destruct Hin as [Hin | Hin]; [discriminate Hin|]).
        exact Hin.
      * contradiction.
      * destruct Hin as [Hin | []]. discriminate Hin.
Qed.

(** Every occurrence of the signature is rewritten with its own type
    parameter, under the same proviso. *)
Lemma sub_sig_rewritten (s : str) :
  Forall (fun g => ~ In ":"%char g) (groups P s) ->
  forall i T rest,
    re_match P (skipn i s) = Some (T, rest) ->
    str_in (lit ": SzorkResult[" ++ T ++ lit "]") (sub P t s) = true.
Proof.
  induction s as [|c s E IH | m g rest0 E IH] using sig_scan_ind;
    intros Hg i T rest Hm.
  - rewrite skipn_nil in Hm. discriminate Hm.
  - unfold P, t in *.
    rewrite (@groups_none _ _ _ E) in Hg. rewrite (@sub_none _ tpl_result _ _ E).
    destruct i as [|i]; [cbn [skipn] in Hm; congruence|].
    cbn [skipn] in Hm. apply str_in_cons. now apply (IH Hg i T rest).
  - unfold P, t in *.
    rewrite (@groups_some _ _ _ _ _ E) in Hg. inversion Hg as [|? ? Hg1 Hg2]; subst.
    rewrite (@sub_some _ tpl_result _ _ _ _ E).
    destruct i as [|i].
    + cbn [skipn] in Hm. rewrite E in Hm. injection Hm as -> _.
      apply str_in_app_l. unfold tpl_result. cbn [expand].
      rewrite app_nil_r. apply str_in_spec. exists [], [].
      now rewrite app_nil_r.
    + cbn [skipn] in Hm. apply str_in_app_r.
      destruct (either_string_span _ E Hg1) as [m' [Hs Hm']].
      apply cons_inv in Hs. destruct Hs as [_ Hs].
      apply app_inv_tail in Hs. subst m'.
      rewrite skipn_app in Hm.
      destruct (skipn i m) as [|x m2] eqn:Ei.
      * cbn [app] in Hm. now apply (IH Hg2 (i - List.length m) T rest).
      * cbn [app] in Hm. apply either_string_head in Hm. subst x.
        exfalso. apply Hm'.
        rewrite <- (firstn_skipn i m), Ei, in_app_iff. right. now left.
Qed.

End SigScan.

(** What the substitution of line 63 does achieve.  When no type parameter
    captured by the scan contains a colon, every match of the signature
    pattern, with group [T], is rewritten: the text after the substitution
    contains [: SzorkResult[T]] with the same [T], and the pattern is no
    longer found in it; when the list-of-strings pattern is not found
    there either, that text is the result of both signature
    substitutions. *)
Theorem signature_rewritten (content : str) (i : nat) (T rest : str) :
  Forall (fun g => ~ In ":"%char g) (groups re_either_string content) ->
  re_match re_either_string (skipn i content) = Some (T, rest) ->
  let rewritten := sub re_either_string tpl_result content in
  str_in (lit ": SzorkResult[" ++ T ++ lit "]") rewritten = true /\
  search re_either_string rewritten = false /\
  (search re_either_list rewritten = false ->
   rewrite_signatures content = rewritten).
Proof.
  intros Hg Hm rewritten. split; [|split].
  - exact (sub_sig_rewritten content Hg i Hm).
  - exact (sub_sig_clean content Hg).
  - intros Hl. unfold rewrite_signatures. now apply sub_not_found.
Qed.

Lemma signature_rewritten_witness :
  str_in (lit ": SzorkResult[" ++ lit "Map[K, V" ++ lit "]")
         (sub re_either_string tpl_result save_signature) = true /\
  search re_either_string (sub re_either_string tpl_result save_signature) =
    false /\
  rewrite_signatures save_signature =
    lit "def save(x: Int): SzorkResult[Map[K, V]] = run(x)".
Proof.
  assert (H : Forall (fun g => ~ In ":"%char g)
                     (groups re_either_string save_signature)).
  { vm_compute. constructor; [|constructor].
    intros H. repeat (destruct H as [H | H]; [discriminate H|]). exact H. }
  assert (Hm : re_match re_either_string (skipn 16 save_signature) =
               Some (lit "Map[K, V", lit "] = run(x)"))
    by (vm_compute; reflexivity).
  destruct (signature_rewritten save_signature 16 H Hm) as [H1 [H2 H3]].
  split; [exact H1|]. split; [exact H2|].
  rewrite H3 by (vm_compute; reflexivity). vm_compute. reflexivity.
Defined.

(** A signature inside a captured type parameter is not rewritten either,
    even when a colon stands before it. *)
Lemma nested_signature_survives :
  let content := lit "x: Either[String, a: Either[String, b]" in
  re_match re_either_string (skipn 19 content) = Some (lit "b", []) /\
  rewrite_signatures content = lit "x: SzorkResult[a: Either[String, b]" /\
  str_in (lit ": SzorkResult[b]") (rewrite_signatures content) = false /\
  search re_either_string (rewrite_signatures content) = true.
Proof. repeat split; vm_compute; reflexivity. Qed.

(** C2 fails on the code.  The pattern of line 63 asks for a colon right
    before [Either], while the test of line 53 counts [Either[String,]
    anywhere as a signature to migrate: a signature that is a type
    argument is left as it is, so the rewritten text has no
    [SzorkResult[Int]], still contains [Either[String, Int]] and still
    passes the migration test. *)
Theorem signature_without_colon_kept :
  str_in (lit "Either[String, Int]") game_scala = true /\
  needs_migration game_scala = true /\
  rewrite_signatures game_scala = game_scala /\
  str_in (lit "SzorkResult[Int]") (transform game_path game_scala) = false /\
  str_in (lit "Either[String, Int]") (transform game_path game_scala) = true /\
  needs_migration (transform game_path game_scala) = true /\
  rewrite_signatures (lit "x: Either[String, Either[String, Int]]") =
    lit "x: SzorkResult[Either[String, Int]]".
Proof. repeat split; vm_compute; reflexivity. Qed.

End SignatureSpec.

(* ------------------------------------------------------------------ *)
(** ** More about add_imports *)

Module ImportExtra.
Import Py Migrate Notions Examples PyFacts ImportFacts.

(** In a text without the sentinel and without an import line, a blank
    line and the two imports are inserted right after the first line that
    starts with [package ]. *)
Theorem package_injection (content : str) :
  str_in import_error content = false ->
  Forall (fun line => startswith line (lit "import ") = false)
         (split nl content) ->
  Exists (fun line => startswith line (lit "package ") = true)
         (split nl content) ->
  exists before package_line after,
    split nl content = before ++ package_line :: after /\
    startswith package_line (lit "package ") = true /\
    Forall (fun line => startswith line (lit "package ") = false) before /\
    split nl (add_imports content) =
      before ++ package_line :: [] :: import_error :: import_handling :: after.
Proof.
  intros Hs Hi Hp.
  destruct (add_imports_lines content Hs)
    as [[b [x [a [Hl [Hx _]]]]] | [[b [x [a [Hl [_ [Hx [Hb Hsplit]]]]]]] | [_ [Hnp _]]]].
  - exfalso. rewrite Hl in Hi. apply Forall_elt in Hi.
    unfold is_import in Hx. congruence.
  - exists b, x, a. repeat split; assumption.
  - exfalso. apply Exists_exists in Hp. destruct Hp as [l [Hin Hl]].
    rewrite Forall_forall in Hnp. specialize (Hnp l Hin).
    unfold is_package in Hnp. congruence.
Qed.

Lemma package_injection_witness :
  exists before package_line after,
    split nl package_only = before ++ package_line :: after /\
    startswith package_line (lit "package ") = true /\
    Forall (fun line => startswith line (lit "package ") = false) before /\
    split nl (add_imports package_only) =
      before ++ package_line :: [] :: import_error :: import_handling :: after.
Proof.
  apply package_injection.
  - vm_compute. reflexivity.
  - vm_compute. repeat constructor.
  - vm_compute. apply Exists_cons_hd. reflexivity.
Defined.

(** [add_imports] is idempotent on every text. *)
Theorem add_imports_idempotent (content : str) :
  add_imports (add_imports content) = add_imports content.
Proof.
  destruct (str_in import_error content) eqn:Hs.
  - now rewrite !(ImportSpec.add_imports_sentinel content Hs).
  - destruct (add_imports_lines content Hs)
      as [[b [x [a [_ [_ [_ [_ Hsplit]]]]]]] | [[b [x [a [_ [_ [_ [_ Hsplit]]]]]]] | [_ [_ H]]]].
    + apply ImportSpec.add_imports_sentinel. apply line_in_content. rewrite Hsplit.
      apply in_or_app. right. right. now left.
    + apply ImportSpec.add_imports_sentinel. apply line_in_content. rewrite Hsplit.
      apply in_or_app. right. right. right. now left.
    + now rewrite !H.
Qed.

(** [add_imports] keeps every line of the text, in order: its output is
    the input with nothing, the two imports, or a blank line and the two
    imports inserted at one place. *)
Theorem add_imports_keeps_lines (content : str) :
  exists before inserted after,
    split nl content = before ++ after /\
    split nl (add_imports content) = before ++ inserted ++ after /\
    (inserted = [] \/
     inserted = [import_error; import_handling] \/
     inserted = [[]; import_error; import_handling]).
Proof.
  destruct (str_in import_error content) eqn:Hs.
  - exists (split nl content), [], []. rewrite (ImportSpec.add_imports_sentinel content Hs).
    rewrite !app_nil_r. auto.
  - destruct (add_imports_lines content Hs)
      as [[b [x [a [Hl [_ [_ [_ Hsplit]]]]]]] | [[b [x [a [Hl [_ [_ [_ Hsplit]]]]]]] | [_ [_ H]]]].
    + exists (b ++ [x]), [import_error; import_handling], a.
      rewrite Hl, Hsplit, <- !app_assoc. cbn [app]. auto.
    + exists (b ++ [x]), [[]; import_error; import_handling], a.
      rewrite Hl, Hsplit, <- !app_assoc. cbn [app]. auto.
    + exists (split nl content), [], []. rewrite H, !app_nil_r. auto.
Qed.

End ImportExtra.

(* ------------------------------------------------------------------ *)
(** ** More about migrate_file and main *)

Module DriverExtra.
Import Py Re Migrate Notions Examples PyFacts.

(** The four ways a call of [migrate_file] can end. *)
Lemma migrate_file_cases (filepath : str) (w : world) :
  migrate_file filepath w = (Returned false, w) \/
  (denylisted filepath = false /\ files w filepath = None /\
   migrate_file filepath w = (Raised, w)) \/
  (denylisted filepath = false /\ files w filepath <> None /\
   migrate_file filepath w =
     (Returned false, World (files w) (log w ++ [EvRead filepath]))) \/
  (denylisted filepath = false /\
   exists content,
     files w filepath <> None /\
     migrate_file filepath w =
       (Returned true,
        World (write_file filepath content (files w))
              (log w ++ [EvRead filepath; EvWrite filepath content;
                         EvPrint (lit "Migrated: " ++ filepath)]))).
Proof.
  unfold migrate_file.
  destruct (denylisted filepath); [now left|].
  destruct (files w filepath) as [content|] eqn:Hf; [|right; left; auto].
  right. right.
  destruct (needs_migration content); cbn [negb files log].
  - destruct (str_eqb (transform filepath content) content); cbn [negb].
    + left. repeat split; congruence.
    + right. split; [reflexivity|]. exists (transform filepath content).
      split; [congruence|]. now rewrite <- app_assoc.
  - left. repeat split; congruence.
Qed.

(** A call of [migrate_file] leaves every other file as it was. *)
Theorem migrate_file_frame (filepath other : str) (w : world) :
  other <> filepath ->
  files (snd (migrate_file filepath w)) other = files w other.
Proof.
  intros Hne.
  destruct (migrate_file_cases filepath w)
    as [H | [[_ [_ H]] | [[_ [_ H]] | [_ [c [_ H]]]]]];
    rewrite H; cbn [snd files]; try reflexivity.
  unfold write_file. destruct (str_eqb other filepath) eqn:E; [|reflexivity].
  apply str_eqb_spec in E. contradiction.
Qed.

Lemma migrate_file_frame_witness :
  files (snd (migrate_file store_path store_dir_world)) plain_path =
  files store_dir_world plain_path.
Proof.
  apply migrate_file_frame. vm_compute. discriminate.
Defined.

(** A call of [migrate_file] only adds to the log, and what it adds is
    nothing, one read, or one read followed by one write of the same file
    and the report of its path. *)
Theorem migrate_file_log (filepath : str) (w : world) :
  exists more,
    log (snd (migrate_file filepath w)) = log w ++ more /\
    (more = [] \/
     more = [EvRead filepath] \/
     exists content,
       more = [EvRead filepath; EvWrite filepath content;
               EvPrint (lit "Migrated: " ++ filepath)]).
Proof.
  destruct (migrate_file_cases filepath w)
    as [H | [[_ [_ H]] | [[_ [_ H]] | [_ [c [_ H]]]]]];
    rewrite H; cbn [snd log].
  - exists []. rewrite app_nil_r. auto.
  - exists []. rewrite app_nil_r. auto.
  - exists [EvRead filepath]. auto.
  - eexists. split; [reflexivity|]. right. right. now exists c.
Qed.

(** When the path is not on the denylist and the file does not exist, the
    open of line 46 raises: [migrate_file] lets the exception escape
    before anything is read, written or printed, and when that file is the
    first one [main] comes to, [main] ends there too, without touching
    any later file and without printing its summary. *)
Theorem missing_file_raises (filepath root file : str) (names : list str)
        (walk : list (str * list str)) (w : world) :
  denylisted filepath = false ->
  files w filepath = None ->
  endswith file (lit ".scala") = true ->
  path_join root file = filepath ->
  migrate_file filepath w = (Raised, w) /\
  main ((root, file :: names) :: walk) w = (Raised, w).
Proof.
  intros Hd Hf He Hj.
  assert (H : migrate_file filepath w = (Raised, w))
    by (unfold migrate_file; now rewrite Hd, Hf).
  split; [exact H|].
  unfold main. cbn [main_walk main_files]. now rewrite He, Hj, H.
Qed.

Lemma missing_file_raises_witness :
  migrate_file (path_join store_dir (lit "Gone.scala")) store_world =
    (Raised, store_world) /\
  main gone_walk store_world = (Raised, store_world).
Proof.
  apply missing_file_raises; vm_compute; reflexivity.
Defined.

(** *** The loops of main *)

Lemma count_writes_app (a b : list event) :
  count_writes (a ++ b) = count_writes a + count_writes b.
Proof.
  induction a as [|e a IH]; [reflexivity|].
  destruct e; cbn [app count_writes]; rewrite IH; reflexivity.
Qed.

Lemma endswith_app (a b suffix : str) :
  endswith b suffix = true -> endswith (a ++ b) suffix = true.
Proof.
  unfold endswith. rewrite rev_app_distr, !startswith_spec.
  intros [r ->]. exists (r ++ rev a). now rewrite app_assoc.
Qed.

Lemma endswith_path_join (root file suffix : str) :
  endswith file suffix = true ->
  endswith (path_join root file) suffix = true.
Proof.
  intros H. unfold path_join.
  destruct (startswith file (lit "/")); [assumption|].
  destruct root as [|c root]; [assumption|].
  destruct (endswith (c :: root) (lit "/")).
  - now apply endswith_app.
  - apply endswith_app. now apply endswith_app.
Qed.

Lemma loop_effect_refl (w : world) (n : nat) :
  loop_effect w n (Returned n, w).
Proof.
  exists []. cbn [fst snd]. rewrite app_nil_r. repeat split; auto.
  intros m H. injection H as <-. cbn. lia.
Qed.

Lemma loop_effect_trans (w w1 : world) (n n1 : nat) (more1 : list event)
      (r : outcome nat * world) :
  log w1 = log w ++ more1 ->
  Forall scala_event more1 ->
  n1 = n + count_writes more1 ->
  (forall q, endswith q (lit ".scala") = false -> files w1 q = files w q) ->
  loop_effect w1 n1 r -> loop_effect w n r.
Proof.
  intros Hlog Hev Hn Hfs [more [Hl [He [Hm Hf]]]].
  exists (more1 ++ more). repeat split.
  - now rewrite Hl, Hlog, app_assoc.
  - apply Forall_app. now split.
  - intros m Hr. rewrite (Hm m Hr), Hn, count_writes_app. lia.
  - intros q Hq. now rewrite (Hf q Hq), (Hfs q Hq).
Qed.

Lemma main_files_effect (root : str) (names : list str) (w : world) (n : nat) :
  loop_effect w n (main_files root names w n).
Proof.
  revert w n; induction names as [|file names IH]; intros w n;
    cbn [main_files].
  - apply loop_effect_refl.
  - destruct (endswith file (lit ".scala")) eqn:He; [|apply IH].
    pose proof (@endswith_path_join root file _ He) as Hp.
    destruct (migrate_file_cases (path_join root file) w)
      as [H | [[_ [_ H]] | [[_ [_ H]] | [_ [c [_ H]]]]]]; rewrite H.
    + apply IH.
    + exists []. cbn [fst snd]. rewrite app_nil_r.
      repeat split; auto. discriminate.
    + eapply loop_effect_trans; [| | | | apply IH]; cbn [log files].
      * reflexivity.
      * repeat constructor. exact Hp.
      * cbn. lia.
      * reflexivity.
    + eapply loop_effect_trans; [| | | | apply IH]; cbn [log files].
      * reflexivity.
      * repeat constructor; exact Hp.
      * cbn. lia.
      * intros q Hq. unfold write_file.
        destruct (str_eqb q (path_join root file)) eqn:E; [|reflexivity].
        apply str_eqb_spec in E. subst q. congruence.
Qed.

Lemma main_walk_effect (walk : list (str * list str)) (w : world) (n : nat) :
  loop_effect w n (main_walk walk w n).
Proof.
  revert w n; induction walk as [|[root names] walk IH]; intros w n;
    cbn [main_walk].
  - apply loop_effect_refl.
  - pose proof (main_files_effect root names w n) as Hf.
    destruct (main_files root names w n) as [[m|] w1].
    + destruct Hf as [more [Hl [He [Hm Hfs]]]]. cbn [fst snd] in *.
      eapply loop_effect_trans; [exact Hl | exact He | | exact Hfs | apply IH].
      now apply Hm.
    + exact Hf.
Qed.

(** However the loops of [main] end, they read and write [.scala] files
    only, and a file whose name does not end in [.scala] keeps its text. *)
Theorem main_touches_scala_only (walk : list (str * list str)) (w : world) :
  exists more,
    log (snd (main_walk walk w 0)) = log w ++ more /\
    Forall scala_event more /\
    forall q, endswith q (lit ".scala") = false ->
              files (snd (main_walk walk w 0)) q = files w q.
Proof.
  destruct (main_walk_effect walk w 0) as [more [Hl [He [_ Hf]]]].
  exists more. auto.
Qed.

(** When [main] returns, the number in its summary line is the number of
    files written during the run, and the summary is followed by the fixed
    review list. *)
Theorem main_summary (walk : list (str * list str)) (w w' : world) :
  main walk w = (Returned tt, w') ->
  exists more,
    Forall scala_event more /\
    log w' =
      log w ++ more ++
      [EvPrint ([nl] ++ lit "Migration complete. " ++
                show_nat (count_writes more) ++ lit " files migrated.");
       EvPrint ([nl] ++ lit "Files that may need manual review:");
       EvPrint (lit "  - TypedWebSocketServer.scala");
       EvPrint (lit "  - SzorkServer.scala");
       EvPrint (lit "  - StreamingAgent.scala");
       EvPrint (lit "  - GameTools.scala")].
Proof.
  unfold main. intros H.
  pose proof (main_walk_effect walk w 0) as He.
  destruct (main_walk walk w 0) as [[m|] w1]; [|discriminate H].
  destruct He as [more [Hl [Hev [Hm _]]]]. cbn [fst snd] in *.
  injection H as <-. exists more. split; [exact Hev|].
  cbn [log]. rewrite Hl, (Hm m eq_refl), <- app_assoc. reflexivity.
Qed.

Lemma main_summary_witness :
  exists more,
    Forall scala_event more /\
    log (snd (main store_walk store_dir_world)) =
      log store_dir_world ++ more ++
      [EvPrint ([nl] ++ lit "Migration complete. " ++
                show_nat (count_writes more) ++ lit " files migrated.");
       EvPrint ([nl] ++ lit "Files that may need manual review:");
       EvPrint (lit "  - TypedWebSocketServer.scala");
       EvPrint (lit "  - SzorkServer.scala");
       EvPrint (lit "  - StreamingAgent.scala");
       EvPrint (lit "  - GameTools.scala")].
Proof.
  apply (@main_summary store_walk store_dir_world).
  vm_compute. reflexivity.
Defined.

End DriverExtra.

(* ------------------------------------------------------------------ *)
(** ** More about the scan *)

Module ScanExtra.
Import Py Re Migrate Notions PyFacts ReFacts.

Section LitHead.
Variable c0 : ascii.
Variable p : pattern.
Variable t : template.

Lemma lit_head_none (c : ascii) (s : str) :
  c <> c0 -> re_match (Lit c0 :: p) (c :: s) = None.
Proof.
  intros Hc. destruct (re_match (Lit c0 :: p) (c :: s)) eqn:E; [|reflexivity].
  apply re_match_lit_head in E. contradiction.
Qed.

(** A stretch without the first character of the pattern is copied. *)
Lemma sub_skip (pre s : str) :
  ~ In c0 pre ->
  sub (Lit c0 :: p) t (pre ++ s) = pre ++ sub (Lit c0 :: p) t s.
Proof.
  induction pre as [|c pre IH]; intros H; [reflexivity|].
  cbn [app]. rewrite sub_none.
  - rewrite IH; [reflexivity|]. intros Hin. apply H. now right.
  - apply lit_head_none. intros ->. apply H. now left.
Qed.

Lemma search_skip (pre s : str) :
  ~ In c0 pre ->
  search (Lit c0 :: p) (pre ++ s) = search (Lit c0 :: p) s.
Proof.
  induction pre as [|c pre IH]; intros H; [reflexivity|].
  cbn [app search]. rewrite lit_head_none.
  - apply IH. intros Hin. apply H. now right.
  - intros ->. apply H. now left.
Qed.

Lemma search_no_head (s : str) :
  ~ In c0 s -> search (Lit c0 :: p) s = false.
Proof.
  intros H. rewrite <- (app_nil_r s). rewrite search_skip by assumption.
  reflexivity.
Qed.

Hypothesis expand_head : forall g, exists e, expand t g = c0 :: e.

(** The output begins like the input, and a character other than [c0] at
    its head was copied. *)
Lemma sub_out_cons (s : str) (x : ascii) (u : str) :
  sub (Lit c0 :: p) t s = x :: u ->
  exists s1, s = x :: s1 /\ (x <> c0 -> u = sub (Lit c0 :: p) t s1).
Proof.
  destruct s as [|c s]; [discriminate|]. intros H.
  destruct (re_match (Lit c0 :: p) (c :: s)) as [[g rest]|] eqn:E.
  - destruct (@re_match_lit_suffix _ _ _ _ _ E) as [m Hm].
    rewrite Hm in E, H. apply cons_inv in Hm. destruct Hm as [-> _].
    rewrite (@sub_some _ t _ _ _ _ E) in H.
    destruct (expand_head g) as [e He]. rewrite He in H.
    apply cons_inv in H. destruct H as [<- _].
    exists s. split; [reflexivity | contradiction].
  - rewrite (@sub_none _ t _ _ E) in H.
    apply cons_inv in H. destruct H as [-> <-].
    exists s. split; reflexivity.
Qed.

Lemma sub_out_prefix (q s u : str) :
  ~ In c0 q -> sub (Lit c0 :: p) t s = q ++ u ->
  exists s0, s = q ++ s0 /\ u = sub (Lit c0 :: p) t s0.
Proof.
  revert s; induction q as [|x q IH]; intros s Hq H.
  - exists s. split; [reflexivity | now symmetry].
  - cbn [app] in H. destruct (sub_out_cons _ H) as [s1 [-> Hu]].
    assert (Hx : x <> c0) by (intros ->; apply Hq; now left).
    specialize (Hu Hx).
    destruct (IH s1) as [s0 [-> Hs0]].
    + intros Hin. apply Hq. now right.
    + now symmetry.
    + exists s0. split; [reflexivity | assumption].
Qed.

End LitHead.

(** When every way of giving characters back fails, the repetition
    fails. *)
Lemma star_k_none (cls : ascii -> bool) (k : str -> option mresult)
      (a b : str) :
  Forall (fun c => cls c = true) a ->
  match b with [] => True | c :: _ => cls c = false end ->
  (forall a1 a2, a = a1 ++ a2 -> k (a2 ++ b) = None) ->
  star_k cls k (a ++ b) = None.
Proof.
  induction a as [|c a IH]; intros Ha Hb Hk; cbn [app].
  - destruct b as [|c b]; cbn [star_k]; [exact (Hk [] [] eq_refl)|].
    rewrite Hb. exact (Hk [] [] eq_refl).
  - inversion Ha as [|? ? Hc Ha']; subst. cbn [star_k]. rewrite Hc.
    rewrite IH; [exact (Hk [] (c :: a) eq_refl) | assumption | assumption |].
    intros a1 a2 E. apply (Hk (c :: a1) a2). now rewrite E.
Qed.

(** When the continuation fails after the whole run but succeeds with the
    last character given back, that is the result. *)
Lemma star_k_backtrack (cls : ascii -> bool) (k : str -> option mresult)
      (a : str) (z : ascii) (b : str) (r : mresult) :
  Forall (fun c => cls c = true) a -> cls z = true ->
  match b with [] => True | c :: _ => cls c = false end ->
  k b = None -> k (z :: b) = Some r ->
  star_k cls k (a ++ z :: b) = Some r.
Proof.
  induction a as [|c a IH]; intros Ha Hz Hb Hk Hkz; cbn [app].
  - cbn [star_k]. rewrite Hz.
    assert (Hs : star_k cls k b = None).
    { destruct b as [|c b]; cbn [star_k]; [assumption|]. now rewrite Hb. }
    now rewrite Hs.
  - inversion Ha as [|? ? Hc Ha']; subst. cbn [star_k]. rewrite Hc.
    now rewrite (IH Ha' Hz Hb Hk Hkz).
Qed.

End ScanExtra.

(* ------------------------------------------------------------------ *)
(** ** More about the rewriter *)

Module RewriteExtra.
Import Py Re Migrate Notions Examples PyFacts ReFacts ScanExtra.

(** *** The Left pattern *)

Lemma re_left_sound (s g rest : str) :
  re_match re_left s = Some (g, rest) ->
  s = lit "Left(" ++ g ++ ")"%char :: rest /\ g <> [] /\ ~ In ")"%char g.
Proof.
  unfold re_match, re_left, lits. intros H.
  apply bt_lits_inv in H. destruct H as [s' [-> H]].
  cbn [bt] in H. destruct s' as [|x s']; [discriminate|].
  destruct (not_char ")" x) eqn:Ex; [|discriminate].
  apply star_k_sound in H. destruct H as [a [b [-> [Ha Hk]]]].
  cbn [bt] in Hk. destruct b as [|y b]; [discriminate|].
  destruct (Ascii.eqb y ")") eqn:Ey; [|discriminate].
  apply Ascii.eqb_eq in Ey. subst y.
  injection Hk as HT ->.
  change (x :: a ++ ")"%char :: rest)
    with ((x :: a) ++ ")"%char :: rest) in HT.
  rewrite firstn_prefix in HT
    by (rewrite length_app; cbn [List.length]; lia).
  subst g. repeat split; try discriminate.
  apply SignatureSpec.not_char_all. now constructor.
Qed.

(** [Left\(([^)]+)\)] matches exactly the texts that begin with [Left(], a
    non-empty argument without a closing parenthesis, and [)]; the group is
    that argument.  In particular [Left()] is not matched. *)
Theorem left_pattern (s g rest : str) :
  (re_match re_left s = Some (g, rest) <->
   s = lit "Left(" ++ g ++ ")"%char :: rest /\ g <> [] /\ ~ In ")"%char g) /\
  re_match re_left (lit "Left()" ++ rest) = None.
Proof.
  split; [|reflexivity]. split.
  - apply re_left_sound.
  - intros [-> [Hne Hno]]. now apply RewriterSpec.re_left_match.
Qed.

(** A text without a closing parenthesis is not changed by the failure
    rewriting, whatever the path. *)
Theorem left_needs_closing_paren (filepath content : str) :
  ~ In ")"%char content -> rewrite_left filepath content = content.
Proof.
  intros H. rewrite RewriterSpec.rewrite_left_classify.
  apply sub_not_found.
  induction content as [|c content IH]; [reflexivity|].
  apply search_cons. split.
  - destruct (re_match re_left (c :: content)) as [[g rest]|] eqn:E;
      [|reflexivity].
    exfalso. apply H. destruct (re_left_sound _ E) as [-> _].
    rewrite !in_app_iff. right. right. now left.
  - apply IH. intros Hin. apply H. now right.
Qed.

Lemma left_needs_closing_paren_witness :
  rewrite_left (lit "save/Store.scala") (lit "val r = Left(oops") =
  lit "val r = Left(oops".
Proof.
  apply left_needs_closing_paren. vm_compute. intros H.
  repeat (destruct H as [H | H]; [discriminate H|]). exact H.
Defined.

(** *** The signature patterns *)

Lemma sig_skip (l : str) (t : template) (pre s : str) :
  ~ In ":"%char pre ->
  sub (sig_pattern l) t (pre ++ s) = pre ++ sub (sig_pattern l) t s.
Proof. apply sub_skip. Qed.

(** A signature whose type parameter does not begin with white space is
    matched with that parameter as the group. *)
Lemma sig_match (l ws1 ws2 : str) (x : ascii) (T rest : str) :
  match l with [] => False | c :: _ => is_space c = false end ->
  Forall (fun c => is_space c = true) ws1 ->
  Forall (fun c => is_space c = true) ws2 ->
  is_space x = false -> ~ In "]"%char (x :: T) ->
  re_match (sig_pattern l)
    (":"%char :: ws1 ++ l ++ ws2 ++ (x :: T) ++ "]"%char :: rest) =
  Some (x :: T, rest).
Proof.
  intros Hl Hws1 Hws2 Hx Hno.
  unfold re_match, sig_pattern. cbn [bt]. rewrite Ascii.eqb_refl.
  apply star_k_greedy; [assumption | |].
  { destruct l as [|c l]; [contradiction | exact Hl]. }
  rewrite bt_lits. unfold sig_tail. cbn [bt].
  apply star_k_greedy; [assumption | exact Hx |]. cbn [bt app].
  apply SignatureSpec.not_char_all in Hno.
  inversion Hno as [|? ? Hx' HT]; subst.
  rewrite Hx'. apply star_k_greedy; [assumption | reflexivity |].
  cbn [bt]. rewrite Ascii.eqb_refl.
  change (x :: T ++ "]"%char :: rest) with ((x :: T) ++ "]"%char :: rest).
  rewrite firstn_prefix by (rewrite length_app; cbn [List.length]; lia).
  reflexivity.
Qed.

Lemma sig_occurrence_sub (l : str) (t : template) (ws1 ws2 : str)
      (x : ascii) (T post : str) :
  match l with [] => False | c :: _ => is_space c = false end ->
  Forall (fun c => is_space c = true) ws1 ->
  Forall (fun c => is_space c = true) ws2 ->
  is_space x = false -> ~ In "]"%char (x :: T) ->
  sub (sig_pattern l) t
      (":"%char :: ws1 ++ l ++ ws2 ++ (x :: T) ++ "]"%char :: post) =
  expand t (x :: T) ++ sub (sig_pattern l) t post.
Proof.
  intros Hl H1 H2 Hx Hno.
  pose proof (@sig_match l ws1 ws2 x T post Hl H1 H2 Hx Hno) as Hm.
  assert (E : ":"%char :: ws1 ++ l ++ ws2 ++ (x :: T) ++ "]"%char :: post =
              ":"%char :: (ws1 ++ l ++ ws2 ++ (x :: T) ++ ["]"%char]) ++ post)
    by (rewrite <- !app_assoc; reflexivity).
  rewrite E in Hm |- *. now apply sub_some.
Qed.

Lemma space_is_not (l : str) (c : ascii) :
  Forall (fun c => is_space c = true) l -> is_space c = false -> ~ In c l.
Proof.
  rewrite Forall_forall. intros H Hc Hin. specialize (H _ Hin). congruence.
Qed.

Lemma occurrence_assoc (ws1 l ws2 param post : str) :
  ws1 ++ l ++ ws2 ++ param ++ "]"%char :: post =
  (ws1 ++ l ++ ws2 ++ param ++ ["]"%char]) ++ post.
Proof. rewrite <- !app_assoc. reflexivity. Qed.

(** The string pattern does not match where the list signature stands. *)
Lemma string_not_list (ws1 v : str) :
  Forall (fun c => is_space c = true) ws1 ->
  re_match (sig_pattern either_string) (":"%char :: ws1 ++ either_list ++ v) =
  None.
Proof.
  intros Hws. unfold re_match, sig_pattern. cbn [bt].
  rewrite Ascii.eqb_refl. apply star_k_none; [assumption | reflexivity |].
  intros a1 a2 E. destruct a2 as [|c a2]; [reflexivity|].
  change (map Lit either_string ++ sig_tail)
    with (Lit "E" :: map Lit (lit "ither[String,") ++ sig_tail).
  cbn [bt app]. destruct (Ascii.eqb c "E") eqn:Ec; [|reflexivity].
  apply Ascii.eqb_eq in Ec. subst c. exfalso.
  rewrite E in Hws. apply Forall_app in Hws. destruct Hws as [_ Hws].
  inversion Hws as [|? ? Hc _]. discriminate Hc.
Qed.

Lemma list_not_result (v : str) :
  re_match (sig_pattern either_list) (":"%char :: lit " SzorkResult[" ++ v) =
  None.
Proof. reflexivity. Qed.

(** An occurrence of the success/string-failure signature before which the
    text has no colon is replaced by [: SzorkResult[T]] by the two
    substitutions of lines 63-64: the white space after the colon and
    after the comma is dropped, the parameter is kept as it is, and the
    rest of the text is rewritten in the same way. *)
Theorem string_signature_occurrence
        (pre ws1 ws2 : str) (x : ascii) (T post : str) :
  ~ In ":"%char pre ->
  Forall (fun c => is_space c = true) ws1 ->
  Forall (fun c => is_space c = true) ws2 ->
  is_space x = false ->
  ~ In "]"%char (x :: T) -> ~ In ":"%char (x :: T) ->
  rewrite_signatures
    (pre ++ ":"%char :: ws1 ++ either_string ++ ws2 ++ (x :: T) ++
     "]"%char :: post) =
  pre ++ lit ": SzorkResult[" ++ (x :: T) ++ "]"%char ::
  rewrite_signatures post.
Proof.
  intros Hpre H1 H2 Hx Hno Hco. unfold rewrite_signatures.
  change re_either_string with (sig_pattern either_string).
  change re_either_list with (sig_pattern either_list).
  rewrite sig_skip by assumption.
  rewrite sig_occurrence_sub by (assumption || reflexivity).
  rewrite sig_skip by assumption. f_equal.
  rewrite SignatureSpec.expand_result.
  rewrite sub_none by (rewrite <- app_assoc; apply list_not_result).
  rewrite sig_skip.
  - cbn [app lit list_ascii_of_string]. rewrite <- !app_assoc. reflexivity.
  - rewrite !in_app_iff. intros [Hin | [Hin | Hin]].
    + vm_compute in Hin.
      repeat (destruct Hin as [Hin | Hin]; [discriminate Hin|]). exact Hin.
    + contradiction.
    + destruct Hin as [Hin | []]. discriminate Hin.
Qed.

Lemma string_signature_occurrence_witness :
  rewrite_signatures
    (lit "def f(x" ++ ":"%char :: lit "  " ++ either_string ++ lit " " ++
     ("M"%char :: lit "ap[K, V") ++ "]"%char :: lit "] = g") =
  lit "def f(x" ++ lit ": SzorkResult[" ++ ("M"%char :: lit "ap[K, V") ++
  "]"%char :: rewrite_signatures (lit "] = g").
Proof.
  apply string_signature_occurrence;
    try (vm_compute; repeat constructor);
    try (vm_compute; intros H;
         repeat (destruct H as [H | H]; [discriminate H|]); exact H).
Defined.

(** The same for an occurrence of the success/list-of-strings-failure
    signature. *)
Theorem list_signature_occurrence
        (pre ws1 ws2 : str) (x : ascii) (T post : str) :
  ~ In ":"%char pre ->
  Forall (fun c => is_space c = true) ws1 ->
  Forall (fun c => is_space c = true) ws2 ->
  is_space x = false ->
  ~ In "]"%char (x :: T) -> ~ In ":"%char (x :: T) ->
  rewrite_signatures
    (pre ++ ":"%char :: ws1 ++ either_list ++ ws2 ++ (x :: T) ++
     "]"%char :: post) =
  pre ++ lit ": SzorkResult[" ++ (x :: T) ++ "]"%char ::
  rewrite_signatures post.
Proof.
  intros Hpre H1 H2 Hx Hno Hco. unfold rewrite_signatures.
  change re_either_string with (sig_pattern either_string).
  change re_either_list with (sig_pattern either_list).
  rewrite (sig_skip either_string) by assumption.
  rewrite sub_none by now apply string_not_list.
  rewrite occurrence_assoc, (sig_skip either_string), <- occurrence_assoc.
  - rewrite sig_skip by assumption.
    rewrite sig_occurrence_sub by (assumption || reflexivity).
    f_equal. unfold tpl_result. cbn [expand].
    rewrite app_nil_r, <- !app_assoc. reflexivity.
  - rewrite !in_app_iff. intros [Hin | [Hin | [Hin | [Hin | Hin]]]].
    + now apply (@space_is_not ws1 ":"%char H1).
    + vm_compute in Hin.
      repeat (destruct Hin as [Hin | Hin]; [discriminate Hin|]). exact Hin.
    + now apply (@space_is_not ws2 ":"%char H2).
    + contradiction.
    + destruct Hin as [Hin | []]. discriminate Hin.
Qed.

Lemma list_signature_occurrence_witness :
  rewrite_signatures
    (lit "def check(x" ++ ":"%char :: lit " " ++ either_list ++ lit " " ++
     ("U"%char :: lit "nit") ++ "]"%char :: lit " = g") =
  lit "def check(x" ++ lit ": SzorkResult[" ++ ("U"%char :: lit "nit") ++
  "]"%char :: rewrite_signatures (lit " = g").
Proof.
  apply list_signature_occurrence;
    try (vm_compute; repeat constructor);
    try (vm_compute; intros H;
         repeat (destruct H as [H | H]; [discriminate H|]); exact H).
Defined.

(** A text without a colon is not changed by the signature
    substitutions. *)
Theorem signatures_need_colon (content : str) :
  ~ In ":"%char content -> rewrite_signatures content = content.
Proof.
  intros H. unfold rewrite_signatures.
  change re_either_string with (sig_pattern either_string).
  change re_either_list with (sig_pattern either_list).
  assert (Hs : forall l, search (sig_pattern l) content = false)
    by (intros l; unfold sig_pattern; now apply search_no_head).
  rewrite (@sub_not_found (sig_pattern either_string)) by apply Hs.
  now apply sub_not_found.
Qed.

Lemma signatures_need_colon_witness :
  rewrite_signatures (lit "Future[Either[String, Int]]") =
  lit "Future[Either[String, Int]]".
Proof.
  apply signatures_need_colon. vm_compute. intros H.
  repeat (destruct H as [H | H]; [discriminate H|]). exact H.
Defined.

End RewriteExtra.

(* ------------------------------------------------------------------ *)
(** ** Edge cases of the patterns, and the rule table *)

Module RulesExtra.
Import Py Re Migrate Notions Examples PyFacts ReFacts ScanExtra.

Lemma space_not_bracket (z : ascii) :
  is_space z = true -> not_char "]" z = true.
Proof.
  intros Hz. unfold not_char. destruct (Ascii.eqb z "]") eqn:E; [|reflexivity].
  apply Ascii.eqb_eq in E. subst z. discriminate Hz.
Qed.

Lemma literal_not_space (c : ascii) (v : str) :
  is_space c = true ->
  bt (map Lit either_string ++ sig_tail) [] [] (c :: v) = None.
Proof.
  intros Hc.
  change (map Lit either_string ++ sig_tail)
    with (Lit "E" :: map Lit (lit "ither[String,") ++ sig_tail).
  cbn [bt]. destruct (Ascii.eqb c "E") eqn:Ec; [|reflexivity].
  apply Ascii.eqb_eq in Ec. subst c. discriminate Hc.
Qed.

(** A signature with nothing between the comma and the closing bracket is
    not matched; one with only white space there is matched, and the group
    is the last white-space character. *)
Theorem blank_type_parameter (ws1 ws2 : str) (z : ascii) (rest : str) :
  Forall (fun c => is_space c = true) ws1 ->
  Forall (fun c => is_space c = true) ws2 ->
  is_space z = true ->
  re_match re_either_string
    (":"%char :: ws1 ++ either_string ++ "]"%char :: rest) = None /\
  re_match re_either_string
    (":"%char :: ws1 ++ either_string ++ ws2 ++ z :: "]"%char :: rest) =
  Some ([z], rest).
Proof.
  intros H1 H2 Hz.
  change re_either_string with (sig_pattern either_string).
  unfold re_match, sig_pattern. cbn [bt]. rewrite Ascii.eqb_refl. split.
  - apply star_k_none; [assumption | reflexivity |].
    intros a1 a2 E. destruct a2 as [|c a2].
    + cbn [app]. rewrite bt_lits. reflexivity.
    + cbn [app]. apply literal_not_space.
      rewrite E in H1. apply Forall_app in H1. destruct H1 as [_ H1].
      now inversion H1.
  - apply star_k_greedy; [assumption | reflexivity |].
    rewrite bt_lits. unfold sig_tail. cbn [bt].
    apply star_k_backtrack; [assumption | assumption | reflexivity
                             | reflexivity |].
    cbn [bt]. rewrite (space_not_bracket z Hz). cbn [star_k].
    change (not_char "]" "]") with false. cbn [bt].
    rewrite Ascii.eqb_refl.
    change (z :: "]"%char :: rest) with ([z] ++ "]"%char :: rest).
    rewrite firstn_prefix by (rewrite length_app; cbn [List.length]; lia).
    reflexivity.
Qed.

Lemma blank_type_parameter_witness :
  re_match re_either_string
    (":"%char :: lit " " ++ either_string ++ "]"%char :: lit " = f") = None /\
  re_match re_either_string
    (":"%char :: lit " " ++ either_string ++ lit " " ++ " "%char ::
     "]"%char :: lit " = f") =
  Some ([" "%char], lit " = f").
Proof.
  apply blank_type_parameter;
    try (vm_compute; repeat constructor); reflexivity.
Defined.

(** *** The logger substitution *)

Lemma logger_match_inv (s : str) (r : mresult) :
  re_match re_logger s = Some r -> exists rest, s = logger_decl ++ rest.
Proof.
  unfold re_match, re_logger, lits.
  rewrite <- (app_nil_r (map Lit _)). intros H.
  apply bt_lits_inv in H. destruct H as [s' [-> _]]. now exists s'.
Qed.

Lemma logger_match (rest : str) :
  re_match re_logger (logger_decl ++ rest) = Some ([], rest).
Proof.
  unfold re_match, re_logger, lits.
  rewrite <- (app_nil_r (map Lit _)).
  change (lit "private val logger = LoggerFactory") with logger_decl.
  now rewrite bt_lits.
Qed.

Lemma logger_clean (content : str) :
  search re_logger (sub re_logger tpl_logger content) = false.
Proof.
  induction content as [|c s E IH | m g rest E IH]
    using (scan_ind "p" (map Lit (lit "rivate val logger = LoggerFactory"))).
  - reflexivity.
  - change (Lit "p" :: map Lit (lit "rivate val logger = LoggerFactory"))
      with re_logger in E.
    rewrite (@sub_none _ tpl_logger _ _ E).
    apply search_cons. split; [|exact IH].
    destruct (re_match re_logger (c :: sub re_logger tpl_logger s))
      as [r|] eqn:E'; [exfalso | reflexivity].
    apply logger_match_inv in E'. destruct E' as [rest H].
    change logger_decl
      with ("p"%char :: lit "rivate val logger = LoggerFactory") in H.
    cbn [app] in H. apply cons_inv in H. destruct H as [-> H].
    apply (@sub_out_prefix "p"
             (map Lit (lit "rivate val logger = LoggerFactory"))
             tpl_logger) in H.
    + destruct H as [s0 [-> _]].
      change ("p"%char :: lit "rivate val logger = LoggerFactory" ++ s0)
        with (logger_decl ++ s0) in E.
      rewrite logger_match in E. discriminate E.
    + intros g. eexists. reflexivity.
    + vm_compute. intros Hin.
      repeat (destruct Hin as [Hin | Hin]; [discriminate Hin|]). exact Hin.
  - change (Lit "p" :: map Lit (lit "rivate val logger = LoggerFactory"))
      with re_logger in E.
    rewrite (@sub_some _ tpl_logger _ _ _ _ E).
    unfold tpl_logger. cbn [expand]. rewrite app_nil_r.
    transitivity (search re_logger (sub re_logger tpl_logger rest));
      [reflexivity | exact IH].
Qed.

(** After the logger substitution no declaration of the old form is left,
    so the substitution is idempotent. *)
Theorem logger_idempotent (content : str) :
  search re_logger (sub re_logger tpl_logger content) = false /\
  sub re_logger tpl_logger (sub re_logger tpl_logger content) =
  sub re_logger tpl_logger content.
Proof.
  split; [apply logger_clean|]. apply sub_not_found. apply logger_clean.
Qed.

(** Each declaration of the old form becomes one of the new form. *)
Theorem logger_made_implicit (pre post : str) :
  ~ In "p"%char pre ->
  sub re_logger tpl_logger (pre ++ logger_decl ++ post) =
  pre ++ lit "private implicit val logger = LoggerFactory" ++
  sub re_logger tpl_logger post.
Proof.
  intros Hpre.
  change re_logger
    with (Lit "p" :: map Lit (lit "rivate val logger = LoggerFactory")).
  rewrite sub_skip by assumption. f_equal.
  change (Lit "p" :: map Lit (lit "rivate val logger = LoggerFactory"))
    with re_logger.
  pose proof (logger_match post) as Hm.
  change (logger_decl ++ post)
    with ("p"%char :: lit "rivate val logger = LoggerFactory" ++ post)
    in Hm |- *.
  rewrite (@sub_some _ tpl_logger _ _ _ _ Hm).
  unfold tpl_logger. cbn [expand]. now rewrite app_nil_r.
Qed.

Lemma logger_made_implicit_witness :
  sub re_logger tpl_logger
      (lit "  " ++ logger_decl ++ lit ".getLogger(getClass)") =
  lit "  " ++ lit "private implicit val logger = LoggerFactory" ++
  sub re_logger tpl_logger (lit ".getLogger(getClass)").
Proof.
  apply logger_made_implicit. vm_compute. intros H.
  repeat (destruct H as [H | H]; [discriminate H|]). exact H.
Defined.

(** *** The rule table *)

(** The test for [parser] in the parse branch never decides anything: a
    path that contains [parser] contains [parse]. *)
Theorem parser_test_redundant (filepath : str) :
  str_in (lit "parse") (lower filepath) ||
  str_in (lit "parser") (lower filepath) =
  str_in (lit "parse") (lower filepath).
Proof.
  destruct (str_in (lit "parser") (lower filepath)) eqn:E;
    [|apply orb_false_r].
  apply str_in_spec in E. destruct E as [a [b E]].
  assert (H : str_in (lit "parse") (lower filepath) = true).
  { apply str_in_spec. exists a, ("r"%char :: b). rewrite E. reflexivity. }
  now rewrite H.
Qed.

Lemma classify_default_and_network (filepath : str) :
  let has := has_keyword filepath in
  (classify filepath = GameState <->
   has "save" = false /\ has "persistence" = false /\
   has "parse" = false /\ has "parser" = false /\ has "valid" = false /\
   has "music" = false /\ has "tts" = false /\ has "speech" = false /\
   has "image" = false /\ has "network" = false /\ has "api" = false)%string /\
  (classify filepath = Network <->
   (has "network" = true \/ has "api" = true) /\
   has "save" = false /\ has "persistence" = false /\
   has "parse" = false /\ has "parser" = false /\ has "valid" = false /\
   has "music" = false /\ has "tts" = false /\ has "speech" = false /\
   has "image" = false)%string.
Proof.
  cbv zeta. unfold has_keyword, classify, keyword_rules.
  cbn [first_rule rule_matches existsb].
  repeat (match goal with
          | |- context [str_in ?k (lower filepath)] =>
              destruct (str_in k (lower filepath))
          end;
          cbn [orb];
          try solve [split; split; intros H; intuition congruence]).
Qed.

(** The chain of lines 70-95 rewrites a file with the catch-all
    [GameStateError] template exactly when its lowercased path contains
    none of the keywords, and with the [NetworkError] template exactly when
    the path contains [network] or [api] and none of the keywords tested
    before. *)
Theorem default_and_network_rules (filepath : str) :
  let has := has_keyword filepath in
  (applies filepath tpl_game_state <->
   has "save" = false /\ has "persistence" = false /\
   has "parse" = false /\ has "parser" = false /\ has "valid" = false /\
   has "music" = false /\ has "tts" = false /\ has "speech" = false /\
   has "image" = false /\ has "network" = false /\ has "api" = false)%string /\
  (applies filepath tpl_network <->
   (has "network" = true \/ has "api" = true) /\
   has "save" = false /\ has "persistence" = false /\
   has "parse" = false /\ has "parser" = false /\ has "valid" = false /\
   has "music" = false /\ has "tts" = false /\ has "speech" = false /\
   has "image" = false)%string.
Proof.
  cbv zeta.
  destruct (classify_default_and_network filepath) as [Hg Hn].
  change tpl_game_state with (left_template GameState).
  change tpl_network with (left_template Network).
  rewrite !RewriterSpec.applies_classify. now split.
Qed.

End RulesExtra.
